(** * The generalized Petersen graph constructor of igraph

    A shallow embedding of [src/constructors/generalized_petersen.c] and the
    properties the specification states about it.

    The C function works on [igraph_integer_t], a signed machine integer,
    and on two collaborators of the library that live outside this file: the
    integer vector that collects the edge endpoints and the graph factory
    [igraph_create].  Integers are modelled as [Z] restricted to the range of
    [igraph_integer_t]; C leaves signed overflow undefined, so an arithmetic
    result outside the range ends the run in [Undefined].  The collaborators
    are fallible (the source wraps them in [IGRAPH_CHECK]); whether the host
    grants their storage is a field of the [host] record. *)

From Stdlib Require Import ZArith Znumtheory List Bool Lia Permutation.
Import ListNotations.
Local Open Scope Z_scope.

(* ================================================================= *)
(** ** Data *)

(** The error codes the function can hand back. *)
Inductive igraph_error_t : Type :=
| IGRAPH_SUCCESS
| IGRAPH_ENOMEM
| IGRAPH_EINVAL
| IGRAPH_EINVEVECTOR
| IGRAPH_EINVVID.

(** Modelled from the spec: the graph object owned by the storage engine
    (section 3, "Graph": a number of vertices indexed from 0, a direction flag
    and the edges as pairs of vertex indices, in the order they were given). *)
Record igraph_t : Type := {
  gr_n : Z;
  gr_directed : bool;
  gr_edges : list (Z * Z)
}.

Definition IGRAPH_UNDIRECTED : bool := false.

Definition igraph_vcount (g : igraph_t) : Z := gr_n g.
Definition igraph_ecount (g : igraph_t) : Z := Z.of_nat (length (gr_edges g)).

(** Modelled from the spec: [igraph_vector_int_t], "an appendable, reservable
    ordered integer sequence" (section 6).  [stor] is the sequence and
    [capacity] the number of integers the buffer has room for. *)
Record igraph_vector_int_t : Type := {
  stor : list Z;
  capacity : Z
}.

(** Modelled from the spec: the number of integers in the sequence.  The
    library returns it as an [igraph_integer_t]; the model counts with a
    mathematical integer and leaves the bound to the statements that need
    it (they ask for [6n] to fit). *)
Definition igraph_vector_int_size (v : igraph_vector_int_t) : Z :=
  Z.of_nat (length (stor v)).

(** What the function's surroundings decide: the width of [igraph_integer_t]
    (its declaration is not in this file) and whether a storage request of
    a collaborator is granted. *)
Record host : Type := {
  IGRAPH_INTEGER_MAX : Z;
  (* does the allocator grant a buffer of that many integers? *)
  reserve_granted : Z -> bool;
  (* does the factory get the storage of a graph with that many vertices
     and that many edge endpoints? *)
  create_granted : Z -> Z -> bool
}.

(** Calls into the storage collaborators, in the order they happen. *)
Inductive storage_event : Type :=
| EvInit
| EvReserve (cells : Z)
| EvGrow (cells : Z)
| EvCreate (vertices endpoints : Z)
| EvDestroy.

(** The memory the function can touch: the caller's graph object (the
    [graph] pointer; [None] while uninitialised), the depth of igraph's
    stack of registered destructors and the log of storage calls. *)
Record world : Type := {
  graph_out : option igraph_t;
  finally_stack : nat;
  storage_log : list storage_event
}.

Definition log (e : storage_event) (w : world) : world :=
  {| graph_out := graph_out w;
     finally_stack := finally_stack w;
     storage_log := storage_log w ++ [e] |}.

(* ================================================================= *)
(** ** A state and error monad for the C control flow *)

(** A run ends by reaching the end of the computation ([Done]), by returning
    an error code early ([Raised], what [IGRAPH_ERROR] and a failed
    [IGRAPH_CHECK] do) or in undefined behaviour. *)
Inductive outcome (A : Type) : Type :=
| Done (a : A) (w : world)
| Raised (e : igraph_error_t) (w : world)
| Undefined.

Arguments Done {A} a w.
Arguments Raised {A} e w.
Arguments Undefined {A}.

Definition M (A : Type) : Type := world -> outcome A.

Definition ret {A : Type} (a : A) : M A := fun w => Done a w.

Definition bind {A B : Type} (m : M A) (f : A -> M B) : M B :=
  fun w =>
    match m w with
    | Done a w' => f a w'
    | Raised e w' => Raised e w'
    | Undefined => Undefined
    end.

Notation "x <- c ;; k" := (bind c (fun x => k))
  (at level 61, c at next level, right associativity).
Notation "c ;;; k" := (bind c (fun _ => k))
  (at level 61, right associativity).

Definition undefined {A : Type} : M A := fun _ => Undefined.

(** Modelled from the spec: the macro [IGRAPH_ERROR] returns the error code
    at once ("raised synchronously"; the validator has "no side effects"). *)
Definition IGRAPH_ERROR {A : Type} (e : igraph_error_t) : M A :=
  fun w => Raised e w.

(** Modelled from the spec: what happens to the buffers registered for
    release when a collaborator fails: every one of them is released
    (sections 5 and 7, "all transient buffers released"). *)
Definition IGRAPH_FINALLY_FREE (w : world) : world :=
  {| graph_out := graph_out w;
     finally_stack := 0%nat;
     storage_log := storage_log w ++ repeat EvDestroy (finally_stack w) |}.

(** Modelled from the spec: the macro [IGRAPH_CHECK] hands a collaborator's
    failure to the caller unchanged, after the registered buffers have been
    released (section 7). *)
Definition IGRAPH_CHECK {A : Type} (call : M A) : M A :=
  fun w =>
    match call w with
    | Raised e w' => Raised e (IGRAPH_FINALLY_FREE w')
    | finished => finished
    end.

(** What a caller sees of a run: the returned code and, on success, the
    graph stored through the [graph] pointer. *)
Definition observable {A : Type} (o : outcome A)
  : option (igraph_error_t * option igraph_t) :=
  match o with
  | Done _ w => Some (IGRAPH_SUCCESS, graph_out w)
  | Raised e _ => Some (e, None)
  | Undefined => None
  end.

Section Program.

Variable h : host.

(* ----------------------------------------------------------------- *)
(** *** [igraph_integer_t] arithmetic *)

Definition IGRAPH_INTEGER_MIN : Z := - IGRAPH_INTEGER_MAX h - 1.

Definition representable (z : Z) : bool :=
  (IGRAPH_INTEGER_MIN <=? z) && (z <=? IGRAPH_INTEGER_MAX h).

Definition int_result (z : Z) : M Z :=
  if representable z then ret z else undefined.

(** [a + b], [a * b] and [a % b] of C on [igraph_integer_t]. *)
Definition int_add (a b : Z) : M Z := int_result (a + b).
Definition int_mul (a b : Z) : M Z := int_result (a * b).
Definition int_rem (a b : Z) : M Z :=
  if (b =? 0) || ((a =? IGRAPH_INTEGER_MIN) && (b =? -1))
  then undefined
  else int_result (Z.rem a b).

(* ----------------------------------------------------------------- *)
(** *** The integer vector *)

(** Modelled from the spec: the operations of the edge-endpoint vector
    (section 6: appendable and reservable; section 7: only the reservation
    can fail for lack of memory).  A reservation asks the allocator for room
    for [cap] integers unless the buffer is already that large; an append
    to a full buffer first doubles the buffer, which the log records. *)
Definition igraph_vector_int_init (size : Z) : M igraph_vector_int_t :=
  fun w =>
    Done {| stor := repeat 0 (Z.to_nat size); capacity := size |}
         (log EvInit w).

Definition finally_push (w : world) : world :=
  {| graph_out := graph_out w;
     finally_stack := S (finally_stack w);
     storage_log := storage_log w |}.

Definition finally_pop (num : nat) (w : world) : world :=
  {| graph_out := graph_out w;
     finally_stack := (finally_stack w - num)%nat;
     storage_log := storage_log w |}.

Definition IGRAPH_FINALLY : M unit := fun w => Done tt (finally_push w).

Definition IGRAPH_FINALLY_CLEAN (num : nat) : M unit :=
  fun w => Done tt (finally_pop num w).

Definition IGRAPH_VECTOR_INT_INIT_FINALLY (size : Z) : M igraph_vector_int_t :=
  v <- IGRAPH_CHECK (igraph_vector_int_init size) ;;
  IGRAPH_FINALLY ;;;
  ret v.

Definition igraph_vector_int_reserve (v : igraph_vector_int_t) (cap : Z)
  : M igraph_vector_int_t :=
  fun w =>
    if cap <=? capacity v then Done v w
    else if reserve_granted h cap
         then Done {| stor := stor v; capacity := cap |} (log (EvReserve cap) w)
         else Raised IGRAPH_ENOMEM w.

(** Modelled from the spec: the room a full buffer is given when it has
    to grow.  The spec leaves the growth strategy to the collaborator; the
    model doubles the buffer.  Only that a buffer with room for [3n]
    integers cannot take [6n] rests on the source, not the size it grows
    to. *)
Definition grown_capacity (v : igraph_vector_int_t) : Z :=
  if igraph_vector_int_size v =? 0 then 1 else 2 * igraph_vector_int_size v.

(** Modelled from the spec: the append.  The spec's interface gives it no
    failure (section 7 names the reservation and the factory as the sources
    of an allocation failure) and the source does not look at its result, so
    the model covers the hosts on which every append goes through; the
    growth of a full buffer is logged.  A host that refuses that growth, or
    a sequence longer than the largest [igraph_integer_t], is outside the
    model. *)
Definition igraph_vector_int_push_back (v : igraph_vector_int_t) (e : Z)
  : M igraph_vector_int_t :=
  fun w =>
    if igraph_vector_int_size v <? capacity v
    then Done {| stor := stor v ++ [e]; capacity := capacity v |} w
    else Done {| stor := stor v ++ [e]; capacity := grown_capacity v |}
              (log (EvGrow (grown_capacity v)) w).

Definition igraph_vector_int_destroy (v : igraph_vector_int_t) : M unit :=
  fun w => Done tt (log EvDestroy w).

(* ----------------------------------------------------------------- *)
(** *** The graph factory *)

(** Consecutive entries of the flat endpoint sequence, read as edges. *)
Fixpoint pair_up (l : list Z) : list (Z * Z) :=
  match l with
  | u :: v :: rest => (u, v) :: pair_up rest
  | _ => []
  end.

(** Modelled from the spec: [igraph_create], the factory of section 4.3,
    "taking (vertex_count, flat edge sequence, undirected-flag) and returning
    a graph value or an allocation/construction error"; the entries are
    read as pairs of vertex indices in [0, vertex_count). *)
Definition igraph_create (edges : igraph_vector_int_t) (n : Z) (directed : bool)
  : M unit :=
  fun w =>
    if Z.odd (igraph_vector_int_size edges) then Raised IGRAPH_EINVEVECTOR w
    else if negb (forallb (fun x => (0 <=? x) && (x <? n)) (stor edges))
    then Raised IGRAPH_EINVVID w
    else if create_granted h n (igraph_vector_int_size edges)
    then Done tt
           {| graph_out := Some {| gr_n := n;
                                   gr_directed := directed;
                                   gr_edges := pair_up (stor edges) |};
              finally_stack := finally_stack w;
              storage_log :=
                storage_log w ++ [EvCreate n (igraph_vector_int_size edges)] |}
    else Raised IGRAPH_ENOMEM w.

(* ----------------------------------------------------------------- *)
(** *** [igraph_generalized_petersen] *)

(** The loop of lines 69-76, [for (i = 0; i < n; i++) { ... }].  The loop
    counter only grows, so [n - i] iterations are left at any time; [fuel]
    is that number. *)
Fixpoint for_loop (fuel : nat) (n k i : Z) (edges : igraph_vector_int_t)
  : M igraph_vector_int_t :=
  match fuel with
  | O => ret edges
  | S fuel' =>
      if i <? n then
        edges <- igraph_vector_int_push_back edges i ;;
        i1 <- int_add i 1 ;;
        outer <- int_rem i1 n ;;
        edges <- igraph_vector_int_push_back edges outer ;;
        edges <- igraph_vector_int_push_back edges i ;;
        spoke <- int_add i n ;;
        edges <- igraph_vector_int_push_back edges spoke ;;
        spoke' <- int_add i n ;;
        edges <- igraph_vector_int_push_back edges spoke' ;;
        ik <- int_add i k ;;
        r <- int_rem ik n ;;
        inner <- int_add r n ;;
        edges <- igraph_vector_int_push_back edges inner ;;
        i' <- int_add i 1 ;;
        for_loop fuel' n k i' edges
      else ret edges
  end.

(** [igraph_generalized_petersen], statement by statement.  The local
    [no_of_nodes] is initialised with [2*n] at its declaration (line 55),
    before the parameters are checked; the second operand of [&&] on line 62
    is only evaluated when [k > 0] holds; the results of the six
    [igraph_vector_int_push_back] calls of a pass are not looked at. *)
Definition igraph_generalized_petersen (n k : Z) : M unit :=
  (* 55 *) no_of_nodes <- int_mul 2 n ;;
  (* 58 *) if n <? 3 then IGRAPH_ERROR IGRAPH_EINVAL else
  (* 62 *) in_range <- (if k >? 0
                        then (k2 <- int_mul 2 k ;; ret (k2 <? n))
                        else ret false) ;;
           if negb in_range then IGRAPH_ERROR IGRAPH_EINVAL else
  (* 66 *) edges <- IGRAPH_VECTOR_INT_INIT_FINALLY 0 ;;
  (* 67 *) cap <- int_mul 3 n ;;
           edges <- IGRAPH_CHECK (igraph_vector_int_reserve edges cap) ;;
  (* 69 *) edges <- for_loop (Z.to_nat n) n k 0 edges ;;
  (* 78 *) IGRAPH_CHECK (igraph_create edges no_of_nodes IGRAPH_UNDIRECTED) ;;;
  (* 80 *) igraph_vector_int_destroy edges ;;;
  (* 81 *) IGRAPH_FINALLY_CLEAN 1 ;;;
  (* 83 *) ret tt.

(** The parts of the function the specification names.  Lines 66-76 are its
    edge enumerator: the vector is created, room is reserved and the loop
    fills it. *)
Definition enumerate_edges (n k : Z) : M igraph_vector_int_t :=
  edges <- IGRAPH_VECTOR_INT_INIT_FINALLY 0 ;;
  cap <- int_mul 3 n ;;
  edges <- IGRAPH_CHECK (igraph_vector_int_reserve edges cap) ;;
  for_loop (Z.to_nat n) n k 0 edges.

(** Lines 78-83: the hand-over to the graph factory and the clean-up. *)
Definition build_graph (n : Z) (edges : igraph_vector_int_t) : M unit :=
  IGRAPH_CHECK (igraph_create edges (2 * n) IGRAPH_UNDIRECTED) ;;;
  igraph_vector_int_destroy edges ;;;
  IGRAPH_FINALLY_CLEAN 1 ;;;
  ret tt.

End Program.

(** Appending the integers of [l] one after the other. *)
Fixpoint push_all (l : list Z) (v : igraph_vector_int_t) : M igraph_vector_int_t :=
  match l with
  | [] => ret v
  | e :: l' => v' <- igraph_vector_int_push_back v e ;; push_all l' v'
  end.

(* ================================================================= *)
(** ** Hosts and inputs used in the examples *)

(** A 64-bit build whose allocator grants every request. *)
Definition host64 : host :=
  {| IGRAPH_INTEGER_MAX := 2 ^ 63 - 1;
     reserve_granted := fun _ => true;
     create_granted := fun _ _ => true |}.

(** A 32-bit build ([IGRAPH_INTEGER_SIZE] 32). *)
Definition host32 : host :=
  {| IGRAPH_INTEGER_MAX := 2 ^ 31 - 1;
     reserve_granted := fun _ => true;
     create_granted := fun _ _ => true |}.

(** A 64-bit build that is out of memory. *)
Definition host_oom : host :=
  {| IGRAPH_INTEGER_MAX := 2 ^ 63 - 1;
     reserve_granted := fun _ => false;
     create_granted := fun _ _ => false |}.

Definition fresh_world : world :=
  {| graph_out := None; finally_stack := 0%nat; storage_log := [] |}.

(* ================================================================= *)
(** ** The graph of the specification *)

(** The loop counter's values: [i, i+1, ...], [len] of them. *)
Fixpoint zrange (i : Z) (len : nat) : list Z :=
  match len with
  | O => []
  | S len' => i :: zrange (i + 1) len'
  end.

Definition range (n : Z) : list Z := zrange 0 (Z.to_nat n).

(** Section 3 of the specification: the accepted parameters. *)
Definition valid_parameters (n k : Z) : Prop := 3 <= n /\ 0 < k /\ 2 * k < n.

(** Section 4.2, in the specification's words: for [i] the outer-cycle edge,
    the spoke and the inner edge, with the mathematical [mod]. *)
Definition outer_edge (n i : Z) : Z * Z := (i, (i + 1) mod n).
Definition spoke_edge (n i : Z) : Z * Z := (i, i + n).
Definition inner_edge (n k i : Z) : Z * Z := (i + n, (i + k) mod n + n).

Definition gp_triple (n k i : Z) : list (Z * Z) :=
  [outer_edge n i; spoke_edge n i; inner_edge n k i].

Definition generalized_petersen_edges (n k : Z) : list (Z * Z) :=
  flat_map (gp_triple n k) (range n).

Definition generalized_petersen_graph (n k : Z) : igraph_t :=
  {| gr_n := 2 * n;
     gr_directed := IGRAPH_UNDIRECTED;
     gr_edges := generalized_petersen_edges n k |}.

(** The six integers one pass of the loop body appends, as the C expressions
    compute them ([%] of C truncates, [Z.rem]). *)
Definition body_values (n k i : Z) : list Z :=
  [i; Z.rem (i + 1) n; i; i + n; i + n; Z.rem (i + k) n + n].

(** An edge list flattened to its endpoints, and the degree of a vertex as
    the number of times it occurs among them. *)
Definition endpoints (el : list (Z * Z)) : list Z :=
  flat_map (fun e => [fst e; snd e]) el.

Definition degree (el : list (Z * Z)) (v : Z) : nat :=
  count_occ Z.eq_dec (endpoints el) v.

(** The edges at positions 0, 3, 6, ... of a list. *)
Fixpoint every_third {A : Type} (l : list A) : list A :=
  match l with
  | [] => []
  | a :: rest =>
      a :: match rest with
           | _ :: _ :: rest' => every_third rest'
           | _ => []
           end
  end.

(** The three kinds of edges, by their place in each triple. *)
Definition outer_cycle_edges (el : list (Z * Z)) : list (Z * Z) :=
  every_third el.
Definition spoke_edges (el : list (Z * Z)) : list (Z * Z) :=
  every_third (tl el).
Definition inner_cycle_edges (el : list (Z * Z)) : list (Z * Z) :=
  every_third (tl (tl el)).

(** Simple graphs: no edge joins a vertex to itself and no two edges join
    the same unordered pair. *)
Definition normalize (e : Z * Z) : Z * Z :=
  (Z.min (fst e) (snd e), Z.max (fst e) (snd e)).

Definition no_self_loop (el : list (Z * Z)) : Prop :=
  Forall (fun e => fst e <> snd e) el.

Definition no_multi_edge (el : list (Z * Z)) : Prop :=
  NoDup (map normalize el).

Definition simple_graph (el : list (Z * Z)) : Prop :=
  no_self_loop el /\ no_multi_edge el.

(* ================================================================= *)
(** ** Cycles and components *)

(** The residues met when stepping from [r] by [k], [len] times. *)
Definition walk_indices (n k r len : Z) : list Z :=
  map (fun j => (r + j * k) mod n) (range len).

(** The inner edges followed when walking from inner vertex [r + n]. *)
Definition inner_walk (n k r len : Z) : list (Z * Z) :=
  map (inner_edge n k) (walk_indices n k r len).

(** [chained u c v]: the edges of [c], taken in order, lead from [u] to [v]. *)
Fixpoint chained (u : Z) (c : list (Z * Z)) (v : Z) : Prop :=
  match c with
  | [] => u = v
  | e :: rest => fst e = u /\ chained (snd e) rest v
  end.

(** A cycle: a closed walk with at least one edge that leaves no vertex
    twice. *)
Definition is_cycle (c : list (Z * Z)) : Prop :=
  c <> [] /\ (exists u, chained u c u) /\ NoDup (map fst c).

(** The edges [el] split into the cycles [cycles], no two of which share a
    vertex. *)
Definition cycle_decomposition (el : list (Z * Z)) (cycles : list (list (Z * Z)))
  : Prop :=
  Permutation (concat cycles) el /\
  Forall is_cycle cycles /\
  NoDup (map fst (concat cycles)).

(** Connected components by search, for the concrete scenarios of section 8:
    the vertices next to [v], what is reached from [seen] in [fuel] rounds,
    and the components of the vertices [vs], each listed in the order of
    [vs]. *)
Definition neighbours (el : list (Z * Z)) (v : Z) : list Z :=
  flat_map (fun e => if fst e =? v then [snd e]
                     else if snd e =? v then [fst e] else []) el.

Fixpoint reachable (el : list (Z * Z)) (fuel : nat) (seen : list Z) : list Z :=
  match fuel with
  | O => seen
  | S fuel' =>
      reachable el fuel' (nodup Z.eq_dec (seen ++ flat_map (neighbours el) seen))
  end.

Definition component (el : list (Z * Z)) (vs : list Z) (v : Z) : list Z :=
  filter (fun u => existsb (Z.eqb u) (reachable el (length vs) [v])) vs.

Definition connected_components (el : list (Z * Z)) (vs : list Z)
  : list (list Z) :=
  nodup (list_eq_dec Z.eq_dec) (map (component el vs) vs).

(* ================================================================= *)
(** ** Connected, bipartite, symmetric *)

(** Two vertices are adjacent when an edge joins them, whichever way it was
    written; [joined] is a walk of any length along the edges. *)
Definition adjacent (el : list (Z * Z)) (u v : Z) : Prop :=
  In (u, v) el \/ In (v, u) el.

Inductive joined (el : list (Z * Z)) : Z -> Z -> Prop :=
| joined_here (u : Z) : joined el u u
| joined_step (u v x : Z) : joined el u v -> adjacent el v x -> joined el u x.

Definition connected_graph (g : igraph_t) : Prop :=
  forall u v, 0 <= u < gr_n g -> 0 <= v < gr_n g -> joined (gr_edges g) u v.

(** A colouring with two colours under which every edge has ends of
    different colours. *)
Definition two_colouring (el : list (Z * Z)) (colour : Z -> bool) : Prop :=
  Forall (fun e => colour (fst e) <> colour (snd e)) el.

Definition bipartite (el : list (Z * Z)) : Prop :=
  exists colour, two_colouring el colour.

(** One step around the rings: outer vertex [i] goes to [(i+1) mod n], inner
    vertex [i+n] to [((i+1) mod n) + n]. *)
Definition rotate (n v : Z) : Z :=
  if v <? n then (v + 1) mod n else (v - n + 1) mod n + n.

Definition rotate_edge (n : Z) (e : Z * Z) : Z * Z :=
  (rotate n (fst e), rotate n (snd e)).


(** The parts of the world a vector operation leaves alone. *)
Definition same_caller_state (w w' : world) : Prop :=
  graph_out w' = graph_out w /\ finally_stack w' = finally_stack w.

(* ================================================================= *)
(** ** Running the monad *)

(** Comparisons of integer constants, by computation. *)
Ltac decide_order :=
  repeat split;
  first [ apply Z.leb_le; vm_compute; reflexivity
        | apply Z.ltb_lt; vm_compute; reflexivity ].


Lemma bind_done {A B : Type} (m : M A) (f : A -> M B) (w w' : world) (a : A) :
  m w = Done a w' -> bind m f w = f a w'.
Proof. intros E. unfold bind. now rewrite E. Qed.

Lemma bind_inv_done {A B : Type} (m : M A) (f : A -> M B) (w w2 : world) (b : B) :
  bind m f w = Done b w2 ->
  exists a w1, m w = Done a w1 /\ f a w1 = Done b w2.
Proof.
  unfold bind. destruct (m w) as [a w1| |]; try discriminate.
  intros E. now exists a, w1.
Qed.

Section Arithmetic.

Variable h : host.

Lemma representable_spec (z : Z) :
  representable h z = true <->
  - IGRAPH_INTEGER_MAX h - 1 <= z <= IGRAPH_INTEGER_MAX h.
Proof.
  unfold representable, IGRAPH_INTEGER_MIN.
  rewrite andb_true_iff, !Z.leb_le. tauto.
Qed.

Lemma representable_nonneg (z : Z) :
  0 <= z <= IGRAPH_INTEGER_MAX h -> representable h z = true.
Proof. intros. apply representable_spec. lia. Qed.

Lemma int_result_done (z : Z) (w : world) :
  representable h z = true -> int_result h z w = Done z w.
Proof. intros E. unfold int_result. now rewrite E. Qed.

Lemma int_result_undefined (z : Z) (w : world) :
  representable h z = false -> int_result h z w = Undefined.
Proof. intros E. unfold int_result. now rewrite E. Qed.

Lemma int_result_inv (z r : Z) (w w' : world) :
  int_result h z w = Done r w' -> r = z /\ w' = w /\ representable h z = true.
Proof.
  unfold int_result. destruct (representable h z); [|discriminate].
  unfold ret. intros E. injection E as -> ->. auto.
Qed.

Lemma int_add_done (a b : Z) (w : world) :
  0 <= a + b <= IGRAPH_INTEGER_MAX h -> int_add h a b w = Done (a + b) w.
Proof. intros. apply int_result_done, representable_nonneg. lia. Qed.

Lemma int_mul_done (a b : Z) (w : world) :
  0 <= a * b <= IGRAPH_INTEGER_MAX h -> int_mul h a b w = Done (a * b) w.
Proof. intros. apply int_result_done, representable_nonneg. lia. Qed.

Lemma int_rem_done (a n : Z) (w : world) :
  0 <= a -> 0 < n <= IGRAPH_INTEGER_MAX h ->
  int_rem h a n w = Done (Z.rem a n) w.
Proof.
  intros Ha Hn. unfold int_rem.
  replace (n =? 0) with false by (symmetry; apply Z.eqb_neq; lia).
  replace (n =? -1) with false by (symmetry; apply Z.eqb_neq; lia).
  rewrite andb_false_r. cbn [orb].
  apply int_result_done, representable_nonneg.
  pose proof (Z.rem_bound_pos a n Ha (proj1 Hn)). lia.
Qed.

End Arithmetic.

(* ================================================================= *)
(** ** The vector and the loop *)

Lemma same_caller_state_refl (w : world) : same_caller_state w w.
Proof. now split. Qed.

Lemma same_caller_state_trans (w1 w2 w3 : world) :
  same_caller_state w1 w2 -> same_caller_state w2 w3 -> same_caller_state w1 w3.
Proof. unfold same_caller_state. intros [-> ->] [-> ->]. now split. Qed.

Lemma push_back_done (v : igraph_vector_int_t) (e : Z) (w : world) :
  exists v' w',
    igraph_vector_int_push_back v e w = Done v' w' /\
    stor v' = stor v ++ [e] /\ same_caller_state w w'.
Proof.
  unfold igraph_vector_int_push_back.
  destruct (igraph_vector_int_size v <? capacity v);
    eexists; eexists; (split; [reflexivity|]); split; try reflexivity;
    now split.
Qed.

Lemma push_all_app (l1 l2 : list Z) :
  forall v w, push_all (l1 ++ l2) v w = bind (push_all l1 v) (push_all l2) w.
Proof.
  induction l1 as [|e l1 IH]; intros v w; [reflexivity|].
  cbn [app push_all].
  destruct (push_back_done v e w) as (v1 & w1 & E1 & _).
  transitivity (push_all (l1 ++ l2) v1 w1); [now apply bind_done|].
  rewrite IH. unfold bind. now rewrite E1.
Qed.

Lemma push_all_done (l : list Z) :
  forall v w,
    exists v' w',
      push_all l v w = Done v' w' /\
      stor v' = stor v ++ l /\ same_caller_state w w'.
Proof.
  induction l as [|e l IH]; intros v w.
  - exists v, w. cbn. rewrite app_nil_r. auto using same_caller_state_refl.
  - cbn [push_all].
    destruct (push_back_done v e w) as (v1 & w1 & E1 & S1 & C1).
    rewrite (bind_done _ _ _ _ _ E1).
    destruct (IH v1 w1) as (v2 & w2 & E2 & S2 & C2).
    exists v2, w2. split; [assumption|]. split.
    + rewrite S2, S1, <- app_assoc. reflexivity.
    + eauto using same_caller_state_trans.
Qed.

(** Appends that fit the buffer leave its capacity alone and call no
    collaborator. *)
Lemma push_all_room (l : list Z) :
  forall v w,
    igraph_vector_int_size v + Z.of_nat (length l) <= capacity v ->
    push_all l v w = Done {| stor := stor v ++ l; capacity := capacity v |} w.
Proof.
  induction l as [|e l IH]; intros v w Hroom.
  - cbn. rewrite app_nil_r. now destruct v.
  - cbn [push_all length] in *. unfold bind, igraph_vector_int_push_back.
    replace (igraph_vector_int_size v <? capacity v) with true
      by (symmetry; apply Z.ltb_lt; lia).
    rewrite IH.
    + cbn [stor capacity]. now rewrite <- app_assoc.
    + unfold igraph_vector_int_size in *. cbn [stor capacity].
      rewrite length_app. cbn [length]. lia.
Qed.

(** Appends to a full buffer: the first one doubles the buffer, and up to
    as many integers as the buffer held fit without a second growth. *)
Lemma push_all_grows (e : Z) (l : list Z) (v : igraph_vector_int_t) (w : world) :
  igraph_vector_int_size v = capacity v -> 0 < capacity v ->
  Z.of_nat (length l) < capacity v ->
  push_all (e :: l) v w =
  Done {| stor := stor v ++ e :: l; capacity := 2 * capacity v |}
       (log (EvGrow (2 * capacity v)) w).
Proof.
  intros Hfull Hpos Hl. cbn [push_all].
  unfold bind, igraph_vector_int_push_back, grown_capacity.
  replace (igraph_vector_int_size v <? capacity v) with false
    by (symmetry; apply Z.ltb_ge; lia).
  replace (igraph_vector_int_size v =? 0) with false
    by (symmetry; apply Z.eqb_neq; lia).
  rewrite Hfull. rewrite push_all_room.
  - cbn [stor capacity]. now rewrite <- app_assoc.
  - unfold igraph_vector_int_size in *. cbn [stor capacity].
    rewrite length_app. cbn [length]. lia.
Qed.

Section Loop.

Variable h : host.

(** One pass of the loop body is six appends, of [body_values n k i]. *)
Lemma for_loop_step (fuel : nat) (n k i : Z) (v : igraph_vector_int_t) (w : world) :
  0 <= i < n -> 0 <= k <= n -> 2 * n <= IGRAPH_INTEGER_MAX h ->
  exists v' w',
    for_loop h (S fuel) n k i v w = for_loop h fuel n k (i + 1) v' w' /\
    push_all (body_values n k i) v w = Done v' w'.
Proof.
  intros Hi Hk Hn. cbn [for_loop push_all body_values].
  replace (i <? n) with true by (symmetry; apply Z.ltb_lt; lia).
  pose proof (Z.rem_bound_pos (i + 1) n ltac:(lia) ltac:(lia)) as R1.
  pose proof (Z.rem_bound_pos (i + k) n ltac:(lia) ltac:(lia)) as R2.
  destruct (push_back_done v i w) as (v1 & w1 & E1 & _).
  rewrite !(bind_done _ _ _ _ _ E1).
  rewrite (bind_done _ _ _ _ _ (int_add_done h i 1 w1 ltac:(lia))).
  rewrite (bind_done _ _ _ _ _ (int_rem_done h (i + 1) n w1 ltac:(lia) ltac:(lia))).
  destruct (push_back_done v1 (Z.rem (i + 1) n) w1) as (v2 & w2 & E2 & _).
  rewrite !(bind_done _ _ _ _ _ E2).
  destruct (push_back_done v2 i w2) as (v3 & w3 & E3 & _).
  rewrite !(bind_done _ _ _ _ _ E3).
  rewrite (bind_done _ _ _ _ _ (int_add_done h i n w3 ltac:(lia))).
  destruct (push_back_done v3 (i + n) w3) as (v4 & w4 & E4 & _).
  rewrite !(bind_done _ _ _ _ _ E4).
  rewrite (bind_done _ _ _ _ _ (int_add_done h i n w4 ltac:(lia))).
  destruct (push_back_done v4 (i + n) w4) as (v5 & w5 & E5 & _).
  rewrite !(bind_done _ _ _ _ _ E5).
  rewrite (bind_done _ _ _ _ _ (int_add_done h i k w5 ltac:(lia))).
  rewrite (bind_done _ _ _ _ _ (int_rem_done h (i + k) n w5 ltac:(lia) ltac:(lia))).
  rewrite (bind_done _ _ _ _ _ (int_add_done h (Z.rem (i + k) n) n w5 ltac:(lia))).
  destruct (push_back_done v5 (Z.rem (i + k) n + n) w5) as (v6 & w6 & E6 & _).
  rewrite !(bind_done _ _ _ _ _ E6).
  rewrite (bind_done _ _ _ _ _ (int_add_done h i 1 w6 ltac:(lia))).
  exists v6, w6. split; reflexivity.
Qed.

(** With [n - i] passes left the loop runs to its end, and what it does to
    the vector is to append the body's values for [i], [i+1], ..., [n-1], in
    that order. *)
Lemma for_loop_pushes (fuel : nat) :
  forall (n k i : Z) (v : igraph_vector_int_t) (w : world),
    0 <= i -> i + Z.of_nat fuel <= n -> 0 <= k <= n ->
    2 * n <= IGRAPH_INTEGER_MAX h ->
    for_loop h fuel n k i v w =
    push_all (flat_map (body_values n k) (zrange i fuel)) v w.
Proof.
  induction fuel as [|fuel IH]; intros n k i v w Hi Hf Hk Hn.
  - reflexivity.
  - destruct (for_loop_step fuel n k i v w) as (v1 & w1 & E1 & P1); try lia.
    rewrite E1. cbn [zrange flat_map]. rewrite push_all_app.
    rewrite (bind_done _ _ _ _ _ P1). apply IH; lia.
Qed.

Lemma for_loop_done (fuel : nat) (n k i : Z) (v : igraph_vector_int_t) (w : world) :
  0 <= i -> i + Z.of_nat fuel <= n -> 0 <= k <= n ->
  2 * n <= IGRAPH_INTEGER_MAX h ->
  exists v' w',
    for_loop h fuel n k i v w = Done v' w' /\
    stor v' = stor v ++ flat_map (body_values n k) (zrange i fuel) /\
    same_caller_state w w'.
Proof.
  intros Hi Hf Hk Hn. rewrite for_loop_pushes by assumption.
  apply push_all_done.
Qed.

End Loop.

(* ================================================================= *)
(** ** The loop counter's values *)

Lemma zrange_In (len : nat) :
  forall i x, In x (zrange i len) <-> i <= x < i + Z.of_nat len.
Proof.
  induction len as [|len IH]; intros i x; cbn [zrange In].
  - lia.
  - rewrite IH. lia.
Qed.

Lemma zrange_length (len : nat) : forall i, length (zrange i len) = len.
Proof. induction len as [|len IH]; intros i; cbn; [|rewrite IH]; reflexivity. Qed.

Lemma zrange_NoDup (len : nat) : forall i, NoDup (zrange i len).
Proof.
  induction len as [|len IH]; intros i; cbn [zrange]; constructor.
  - rewrite zrange_In. lia.
  - apply IH.
Qed.

Lemma range_In (n x : Z) : In x (range n) <-> 0 <= x < n.
Proof. unfold range. rewrite zrange_In. lia. Qed.

Lemma range_length (n : Z) : length (range n) = Z.to_nat n.
Proof. apply zrange_length. Qed.

Lemma range_NoDup (n : Z) : NoDup (range n).
Proof. apply zrange_NoDup. Qed.

(* ================================================================= *)
(** ** From the C expressions to the specification's edges *)

Lemma body_values_bounds (n k i : Z) :
  0 <= i < n -> 0 <= k ->
  Forall (fun x => 0 <= x < 2 * n) (body_values n k i).
Proof.
  intros Hi Hk.
  pose proof (Z.rem_bound_pos (i + 1) n ltac:(lia) ltac:(lia)).
  pose proof (Z.rem_bound_pos (i + k) n ltac:(lia) ltac:(lia)).
  unfold body_values. repeat constructor; lia.
Qed.

Lemma pair_up_body_values (n k i : Z) (rest : list Z) :
  0 <= i -> 0 < n -> 0 <= k ->
  pair_up (body_values n k i ++ rest) = gp_triple n k i ++ pair_up rest.
Proof.
  intros Hi Hn Hk. unfold body_values, gp_triple. cbn.
  rewrite !Z.rem_mod_nonneg by lia. reflexivity.
Qed.

Lemma pair_up_loop_values (n k : Z) (l : list Z) :
  0 < n -> 0 <= k -> (forall i, In i l -> 0 <= i) ->
  pair_up (flat_map (body_values n k) l) = flat_map (gp_triple n k) l.
Proof.
  intros Hn Hk. induction l as [|i l IH]; intros Hl; [reflexivity|].
  cbn [flat_map]. rewrite pair_up_body_values; try lia.
  - rewrite IH; [reflexivity|]. intros j Hj. apply Hl. now right.
  - apply Hl. now left.
Qed.

Lemma pair_up_range (n k : Z) :
  0 < n -> 0 <= k ->
  pair_up (flat_map (body_values n k) (range n)) = generalized_petersen_edges n k.
Proof.
  intros. apply pair_up_loop_values; try lia.
  intros i Hi. apply range_In in Hi. lia.
Qed.

Lemma loop_values_length (n k : Z) (l : list Z) :
  length (flat_map (body_values n k) l) = (6 * length l)%nat.
Proof.
  induction l as [|i l IH]; [reflexivity|].
  cbn [flat_map]. rewrite length_app, IH. cbn. lia.
Qed.

Lemma loop_values_bounds (n k : Z) :
  0 <= k ->
  Forall (fun x => 0 <= x < 2 * n) (flat_map (body_values n k) (range n)).
Proof.
  intros Hk. apply Forall_flat_map. apply Forall_forall. intros i Hi.
  apply range_In in Hi. now apply body_values_bounds.
Qed.

Lemma edges_length (n k : Z) :
  0 <= n -> Z.of_nat (length (generalized_petersen_edges n k)) = 3 * n.
Proof.
  intros Hn. unfold generalized_petersen_edges.
  assert (E : forall l, length (flat_map (gp_triple n k) l) = (3 * length l)%nat).
  { induction l as [|i l IH]; [reflexivity|].
    cbn [flat_map]. rewrite length_app, IH. cbn. lia. }
  rewrite E, range_length. lia.
Qed.

(* ================================================================= *)
(** ** Every way the enumerator and the constructor can end *)

Section Runs.

Variable h : host.

Lemma enumerate_edges_overflow (n k : Z) (w : world) :
  representable h (3 * n) = false -> enumerate_edges h n k w = Undefined.
Proof.
  intros E. unfold enumerate_edges, IGRAPH_VECTOR_INT_INIT_FINALLY, IGRAPH_CHECK,
    igraph_vector_int_init, IGRAPH_FINALLY, int_mul, bind, ret.
  now rewrite (int_result_undefined h _ _ E).
Qed.

Lemma enumerate_edges_oom (n k : Z) (w : world) :
  0 < n -> 3 * n <= IGRAPH_INTEGER_MAX h -> reserve_granted h (3 * n) = false ->
  exists w', enumerate_edges h n k w = Raised IGRAPH_ENOMEM w' /\
             graph_out w' = graph_out w.
Proof.
  intros Hn Hmax E. unfold enumerate_edges, IGRAPH_VECTOR_INT_INIT_FINALLY,
    IGRAPH_CHECK, igraph_vector_int_init, IGRAPH_FINALLY, bind, ret.
  rewrite int_mul_done by lia.
  unfold igraph_vector_int_reserve. cbn [capacity].
  replace (3 * n <=? 0) with false by (symmetry; apply Z.leb_gt; lia).
  rewrite E. eexists. split; reflexivity.
Qed.

(** With the reservation granted, the enumerator is the appends of the
    loop to an empty vector with room for [3*n] integers. *)
Lemma enumerate_edges_pushes (n k : Z) (w : world) :
  0 < n -> 0 <= k <= n -> 3 * n <= IGRAPH_INTEGER_MAX h ->
  reserve_granted h (3 * n) = true ->
  enumerate_edges h n k w =
  push_all (flat_map (body_values n k) (range n))
           {| stor := []; capacity := 3 * n |}
           (log (EvReserve (3 * n)) (finally_push (log EvInit w))).
Proof.
  intros Hn Hk Hmax E. unfold enumerate_edges, IGRAPH_VECTOR_INT_INIT_FINALLY,
    IGRAPH_CHECK, igraph_vector_int_init, IGRAPH_FINALLY, bind, ret.
  rewrite int_mul_done by lia.
  unfold igraph_vector_int_reserve. cbn [capacity].
  replace (3 * n <=? 0) with false by (symmetry; apply Z.leb_gt; lia).
  rewrite E. cbn [stor repeat Z.to_nat]. apply for_loop_pushes; lia.
Qed.

Lemma enumerate_edges_done (n k : Z) (w : world) :
  0 < n -> 0 <= k <= n -> 3 * n <= IGRAPH_INTEGER_MAX h ->
  reserve_granted h (3 * n) = true ->
  exists v w',
    enumerate_edges h n k w = Done v w' /\
    stor v = flat_map (body_values n k) (range n) /\
    graph_out w' = graph_out w /\
    finally_stack w' = S (finally_stack w).
Proof.
  intros Hn Hk Hmax E. rewrite enumerate_edges_pushes by assumption.
  match goal with
  | |- context [push_all ?l ?v ?w0] =>
      destruct (push_all_done l v w0) as (v' & w' & E' & S' & G' & F')
  end.
  exists v', w'. rewrite E'. cbn in S', G', F'. auto.
Qed.

(** A finished enumeration has not overflowed, and its reservation held. *)
Lemma enumerate_edges_inv (n k : Z) (w w' : world) (v : igraph_vector_int_t) :
  0 < n -> enumerate_edges h n k w = Done v w' ->
  3 * n <= IGRAPH_INTEGER_MAX h /\ reserve_granted h (3 * n) = true.
Proof.
  intros Hn E.
  destruct (representable h (3 * n)) eqn:R.
  - apply representable_spec in R. split; [lia|].
    destruct (reserve_granted h (3 * n)) eqn:G; [reflexivity|].
    destruct (enumerate_edges_oom n k w) as (w1 & E1 & _); try lia; auto.
    congruence.
  - rewrite enumerate_edges_overflow in E by assumption. discriminate.
Qed.

(** The enumerator never returns an error code of its own other than the
    reservation's. *)
Lemma for_loop_never_raises (fuel : nat) :
  forall n k i v w e w', for_loop h fuel n k i v w <> Raised e w'.
Proof.
  induction fuel as [|fuel IH]; intros n k i v w e w'; cbn [for_loop].
  - discriminate.
  - destruct (i <? n); [|discriminate].
    unfold bind, igraph_vector_int_push_back, int_add, int_rem, int_result,
      undefined, ret.
    repeat match goal with
           | |- context [if ?c then _ else _] => destruct c
           end; try discriminate; apply IH.
Qed.

Lemma enumerate_edges_raises (n k : Z) (w w' : world) (e : igraph_error_t) :
  enumerate_edges h n k w = Raised e w' -> e = IGRAPH_ENOMEM.
Proof.
  unfold enumerate_edges, IGRAPH_VECTOR_INT_INIT_FINALLY, IGRAPH_CHECK,
    igraph_vector_int_init, IGRAPH_FINALLY, int_mul, int_result, undefined,
    bind, ret, igraph_vector_int_reserve.
  cbn [capacity].
  repeat match goal with
         | |- context [if ?c then _ else _] => destruct c
         end; try discriminate.
  - intros E. exfalso. revert E.
    match goal with |- ?x = _ -> _ => destruct x eqn:E' end; try discriminate.
    now apply for_loop_never_raises in E'.
  - intros E. exfalso. revert E.
    match goal with |- ?x = _ -> _ => destruct x eqn:E' end; try discriminate.
    now apply for_loop_never_raises in E'.
  - now intros [= <- _].
Qed.

End Runs.

Section Constructor.

Variable h : host.

Lemma petersen_accepts (n k : Z) (w : world) :
  valid_parameters n k -> 2 * n <= IGRAPH_INTEGER_MAX h ->
  igraph_generalized_petersen h n k w =
  bind (enumerate_edges h n k) (build_graph h n) w.
Proof.
  intros (Hn & Hk & Hkn) Hmax. unfold igraph_generalized_petersen.
  rewrite (bind_done _ _ _ _ _ (int_mul_done h 2 n w ltac:(lia))).
  replace (n <? 3) with false by (symmetry; apply Z.ltb_ge; lia).
  replace (k >? 0) with true by (symmetry; apply Z.gtb_lt; lia).
  assert (K : bind (int_mul h 2 k) (fun k2 => ret (k2 <? n)) w = Done true w).
  { rewrite (bind_done _ _ _ _ _ (int_mul_done h 2 k w ltac:(lia))).
    unfold ret. f_equal. apply Z.ltb_lt. lia. }
  rewrite (bind_done _ _ _ _ _ K). cbn [negb].
  unfold enumerate_edges, build_graph, bind.
  repeat match goal with
         | |- context [match ?m ?w0 with
                       | Done _ _ => _ | Raised _ _ => _ | Undefined => _
                       end] => destruct (m w0)
         end; reflexivity.
Qed.

Lemma igraph_create_loop_values (n k : Z) (v : igraph_vector_int_t) (w : world) :
  0 < n -> 0 <= k ->
  stor v = flat_map (body_values n k) (range n) ->
  igraph_create h v (2 * n) IGRAPH_UNDIRECTED w =
  if create_granted h (2 * n) (6 * n)
  then Done tt {| graph_out := Some (generalized_petersen_graph n k);
                  finally_stack := finally_stack w;
                  storage_log := storage_log w ++ [EvCreate (2 * n) (6 * n)] |}
  else Raised IGRAPH_ENOMEM w.
Proof.
  intros Hn Hk S. unfold igraph_create, igraph_vector_int_size.
  rewrite S, loop_values_length, range_length.
  replace (Z.of_nat (6 * Z.to_nat n)) with (6 * n) by lia.
  replace (Z.odd (6 * n)) with false
    by (symmetry; rewrite Z.odd_mul; reflexivity).
  replace (forallb _ _) with true.
  - cbn [negb]. rewrite pair_up_range by lia. reflexivity.
  - symmetry. apply forallb_forall. intros x Hx.
    pose proof (loop_values_bounds n k Hk) as B.
    rewrite Forall_forall in B. specialize (B x Hx).
    apply andb_true_iff. split; [apply Z.leb_le|apply Z.ltb_lt]; lia.
Qed.

(** Valid parameters in range, both storage requests granted: success. *)
Lemma petersen_success (n k : Z) (w : world) :
  valid_parameters n k -> 3 * n <= IGRAPH_INTEGER_MAX h ->
  reserve_granted h (3 * n) = true -> create_granted h (2 * n) (6 * n) = true ->
  exists w',
    igraph_generalized_petersen h n k w = Done tt w' /\
    graph_out w' = Some (generalized_petersen_graph n k) /\
    finally_stack w' = finally_stack w.
Proof.
  intros V Hmax R C. pose proof V as (Hn & Hk & Hkn).
  rewrite petersen_accepts by (auto; lia).
  destruct (enumerate_edges_done h n k w) as (v & w1 & E & S & G & F);
    try lia; auto.
  rewrite (bind_done _ _ _ _ _ E). unfold build_graph, IGRAPH_CHECK, bind.
  rewrite (igraph_create_loop_values n k) by (auto; lia).
  rewrite C. cbn. eexists. split; [reflexivity|]. cbn. split; [reflexivity|].
  rewrite F. lia.
Qed.

(** Valid parameters in range, a storage request refused: the failure is
    handed on and the caller's graph object is not touched. *)
Lemma petersen_oom (n k : Z) (w : world) :
  valid_parameters n k -> 3 * n <= IGRAPH_INTEGER_MAX h ->
  reserve_granted h (3 * n) && create_granted h (2 * n) (6 * n) = false ->
  exists w',
    igraph_generalized_petersen h n k w = Raised IGRAPH_ENOMEM w' /\
    graph_out w' = graph_out w.
Proof.
  intros V Hmax RC. pose proof V as (Hn & Hk & Hkn).
  rewrite petersen_accepts by (auto; lia).
  destruct (reserve_granted h (3 * n)) eqn:R.
  - rewrite andb_true_l in RC.
    destruct (enumerate_edges_done h n k w) as (v & w1 & E & S & G & F);
      try lia; auto.
    rewrite (bind_done _ _ _ _ _ E). unfold build_graph, IGRAPH_CHECK, bind.
    rewrite (igraph_create_loop_values n k) by (auto; lia).
    rewrite RC. eauto.
  - destruct (enumerate_edges_oom h n k w) as (w1 & E & G); try lia; auto.
    unfold bind. rewrite E. eauto.
Qed.

(** Valid parameters whose triple does not fit [igraph_integer_t]. *)
Lemma petersen_overflow (n k : Z) (w : world) :
  valid_parameters n k -> IGRAPH_INTEGER_MAX h < 3 * n ->
  igraph_generalized_petersen h n k w = Undefined.
Proof.
  intros V Hmax. pose proof V as (Hn & Hk & Hkn).
  destruct (Z_le_gt_dec (2 * n) (IGRAPH_INTEGER_MAX h)) as [H2|H2].
  - rewrite petersen_accepts by auto. unfold bind.
    rewrite enumerate_edges_overflow; [reflexivity|].
    destruct (representable h (3 * n)) eqn:R; [|reflexivity].
    apply representable_spec in R. lia.
  - unfold igraph_generalized_petersen, bind, int_mul.
    rewrite int_result_undefined; [reflexivity|].
    destruct (representable h (2 * n)) eqn:R; [|reflexivity].
    apply representable_spec in R. lia.
Qed.

(** Parameters the validator does not accept: the function stops at the
    validator, either with [IGRAPH_EINVAL] and the world as it was, or in an
    overflow of [2*n] or [2*k]. *)
Lemma petersen_rejects (n k : Z) (w : world) :
  ~ valid_parameters n k ->
  igraph_generalized_petersen h n k w =
  if representable h (2 * n) && ((n <? 3) || (k <=? 0) || representable h (2 * k))
  then Raised IGRAPH_EINVAL w else Undefined.
Proof.
  intros V. unfold igraph_generalized_petersen, bind at 1, int_mul at 1, int_result.
  destruct (representable h (2 * n)); [|reflexivity]. cbn [andb ret].
  destruct (Z.ltb_spec n 3) as [Hn|Hn]; [reflexivity|]. cbn [orb].
  unfold bind at 1. rewrite Z.gtb_ltb.
  destruct (Z.ltb_spec 0 k) as [Hk|Hk].
  - replace (k <=? 0) with false by (symmetry; apply Z.leb_gt; lia).
    cbn [orb]. unfold bind at 1, int_mul, int_result.
    destruct (representable h (2 * k)); [|reflexivity]. unfold ret.
    replace (2 * k <? n) with false; [reflexivity|].
    symmetry. apply Z.ltb_ge. unfold valid_parameters in V. lia.
  - replace (k <=? 0) with true by (symmetry; apply Z.leb_le; lia).
    reflexivity.
Qed.

End Constructor.

(* ================================================================= *)
(** ** Arithmetic modulo [n] *)

Lemma mod_eq_multiple (n a b : Z) :
  0 < n -> a mod n = b mod n -> exists q, a - b = q * n.
Proof.
  intros Hn E. exists (a / n - b / n).
  pose proof (Z.div_mod a n ltac:(lia)) as Ha.
  pose proof (Z.div_mod b n ltac:(lia)) as Hb.
  rewrite E in Ha. nia.
Qed.

Lemma small_multiple_zero (n q d : Z) :
  0 < n -> d = q * n -> - n < d < n -> d = 0.
Proof.
  intros Hn -> Hd.
  assert (q = 0) as -> by nia. reflexivity.
Qed.

(** Two residues whose difference is below [n] in absolute value. *)
Lemma mod_eq_close (n a b : Z) :
  0 < n -> a mod n = b mod n -> - n < a - b < n -> a = b.
Proof.
  intros Hn E Hd. destruct (mod_eq_multiple n a b Hn E) as [q Hq].
  pose proof (small_multiple_zero n q (a - b) Hn Hq Hd). lia.
Qed.

Lemma mod_shift_inj (n k i j : Z) :
  0 < n -> 0 <= i < n -> 0 <= j < n ->
  (i + k) mod n = (j + k) mod n -> i = j.
Proof.
  intros Hn Hi Hj E.
  pose proof (mod_eq_close n (i + k) (j + k) Hn E ltac:(lia)). lia.
Qed.

(** Shifting by [s] with [0 < s < n] moves every residue. *)
Lemma mod_shift_moves (n s i : Z) :
  0 < s < n -> 0 <= i < n -> (i + s) mod n <> i.
Proof.
  intros Hs Hi E.
  rewrite <- (Z.mod_small i n) in E at 2 by lia.
  destruct (mod_eq_multiple n _ _ ltac:(lia) E) as [q Hq].
  replace (i + s - i) with s in Hq by lia.
  assert (q = 0) by nia. subst q. lia.
Qed.

(** Shifting twice by [s] moves every residue too unless [n] divides [2s]. *)
Lemma mod_shift_twice (n s i : Z) :
  0 < 2 * s < n -> 0 <= i < n -> ((i + s) mod n + s) mod n <> i.
Proof.
  intros Hs Hi. rewrite Zplus_mod_idemp_l.
  replace (i + s + s) with (i + 2 * s) by lia.
  apply mod_shift_moves; lia.
Qed.

(* ================================================================= *)
(** ** Lists of triples *)

Lemma NoDup_map_on {A B : Type} (f : A -> B) (l : list A) :
  (forall x y, In x l -> In y l -> f x = f y -> x = y) ->
  NoDup l -> NoDup (map f l).
Proof.
  intros Inj N. induction N as [|a l Ha N IH]; cbn [map]; constructor.
  - rewrite in_map_iff. intros (y & E & Hy).
    apply Inj in E; [subst; contradiction|now right|now left].
  - apply IH. intros x y Hx Hy. apply Inj; now right.
Qed.

Lemma triples_permutation {A B : Type} (f g e : A -> B) (l : list A) :
  Permutation (flat_map (fun i => [f i; g i; e i]) l)
              (map f l ++ map g l ++ map e l).
Proof.
  induction l as [|i l IH]; [constructor|].
  cbn [flat_map map app]. constructor.
  apply Permutation_cons_app. rewrite app_assoc.
  apply Permutation_cons_app. now rewrite <- app_assoc.
Qed.

Lemma every_third_triples {A B : Type} (f g e : A -> B) (l : list A) :
  every_third (flat_map (fun i => [f i; g i; e i]) l) = map f l.
Proof.
  induction l as [|i l IH]; [reflexivity|].
  cbn [flat_map app every_third map]. now rewrite IH.
Qed.

Lemma every_third_triples_tl {A B : Type} (f g e : A -> B) (l : list A) :
  every_third (tl (flat_map (fun i => [f i; g i; e i]) l)) = map g l.
Proof.
  destruct l as [|i l]; [reflexivity|]. cbn [flat_map app tl].
  revert i. induction l as [|j l IH]; intros i; [reflexivity|].
  cbn [flat_map app every_third map]. f_equal. apply IH.
Qed.

Lemma every_third_triples_tl_tl {A B : Type} (f g e : A -> B) (l : list A) :
  every_third (tl (tl (flat_map (fun i => [f i; g i; e i]) l))) = map e l.
Proof.
  destruct l as [|i l]; [reflexivity|]. cbn [flat_map app tl].
  revert i. induction l as [|j l IH]; intros i; [reflexivity|].
  cbn [flat_map app every_third map]. f_equal. apply IH.
Qed.

(** The three kinds of edges of the specification's edge list. *)
Lemma outer_cycle_edges_spec (n k : Z) :
  outer_cycle_edges (generalized_petersen_edges n k) = map (outer_edge n) (range n).
Proof. apply every_third_triples. Qed.

Lemma spoke_edges_spec (n k : Z) :
  spoke_edges (generalized_petersen_edges n k) = map (spoke_edge n) (range n).
Proof. apply (every_third_triples_tl (outer_edge n)). Qed.

Lemma inner_cycle_edges_spec (n k : Z) :
  inner_cycle_edges (generalized_petersen_edges n k) = map (inner_edge n k) (range n).
Proof. apply (every_third_triples_tl_tl (outer_edge n) (spoke_edge n)). Qed.

Lemma edges_by_kind (n k : Z) :
  Permutation (generalized_petersen_edges n k)
              (map (outer_edge n) (range n) ++ map (spoke_edge n) (range n)
               ++ map (inner_edge n k) (range n)).
Proof. apply triples_permutation. Qed.

(* ================================================================= *)
(** ** Degrees *)

Lemma degree_app (l1 l2 : list (Z * Z)) (v : Z) :
  degree (l1 ++ l2) v = (degree l1 v + degree l2 v)%nat.
Proof. unfold degree, endpoints. now rewrite flat_map_app, count_occ_app. Qed.

Lemma degree_permutation (l1 l2 : list (Z * Z)) (v : Z) :
  Permutation l1 l2 -> degree l1 v = degree l2 v.
Proof.
  intros P. unfold degree, endpoints.
  apply Permutation_count_occ. now apply Permutation_flat_map.
Qed.

Lemma degree_map {A : Type} (f : A -> Z * Z) (l : list A) (v : Z) :
  degree (map f l) v =
  (count_occ Z.eq_dec (map (fun i => fst (f i)) l) v
   + count_occ Z.eq_dec (map (fun i => snd (f i)) l) v)%nat.
Proof.
  unfold degree, endpoints. induction l as [|i l IH]; [reflexivity|].
  cbn [map flat_map app count_occ]. rewrite IH.
  destruct (Z.eq_dec (fst (f i)) v), (Z.eq_dec (snd (f i)) v); lia.
Qed.

Lemma count_occ_NoDup_In (l : list Z) (v : Z) :
  NoDup l -> In v l -> count_occ Z.eq_dec l v = 1%nat.
Proof. intros N. now apply NoDup_count_occ'. Qed.

Lemma count_occ_absent (l : list Z) (v : Z) :
  ~ In v l -> count_occ Z.eq_dec l v = 0%nat.
Proof. apply count_occ_not_In. Qed.

(** The inner ring's vertices: [n], [n+1], ..., [2n-1]. *)
Lemma inner_vertices_NoDup (n : Z) : NoDup (map (fun i => i + n) (range n)).
Proof. apply NoDup_map_on; [intros; lia|apply range_NoDup]. Qed.

Lemma inner_vertices_In (n v : Z) :
  In v (map (fun i => i + n) (range n)) <-> n <= v < 2 * n.
Proof.
  rewrite in_map_iff. split.
  - intros (i & <- & Hi). apply range_In in Hi. lia.
  - intros Hv. exists (v - n). rewrite range_In. lia.
Qed.

(** Adding [k] modulo [n] permutes the residues. *)
Lemma rotation_permutation (n k : Z) :
  0 < n -> Permutation (map (fun i => (i + k) mod n) (range n)) (range n).
Proof.
  intros Hn. apply NoDup_Permutation_bis.
  - apply NoDup_map_on; [|apply range_NoDup].
    intros i j Hi Hj. rewrite range_In in Hi, Hj. now apply mod_shift_inj.
  - now rewrite length_map.
  - intros x Hx. apply in_map_iff in Hx as (i & <- & _).
    apply range_In. apply Z.mod_pos_bound. lia.
Qed.

Lemma rotation_permutation_inner (n k : Z) :
  0 < n ->
  Permutation (map (fun i => (i + k) mod n + n) (range n))
              (map (fun i => i + n) (range n)).
Proof.
  intros Hn.
  rewrite <- (map_map (fun i => (i + k) mod n) (fun r => r + n)).
  apply Permutation_map. now apply rotation_permutation.
Qed.

Lemma count_outer_ring (n v : Z) :
  count_occ Z.eq_dec (range n) v = if (0 <=? v) && (v <? n) then 1%nat else 0%nat.
Proof.
  destruct (Z.leb_spec 0 v), (Z.ltb_spec v n); cbn [andb].
  - apply count_occ_NoDup_In; [apply range_NoDup|]. apply range_In. lia.
  - apply count_occ_absent. rewrite range_In. lia.
  - apply count_occ_absent. rewrite range_In. lia.
  - apply count_occ_absent. rewrite range_In. lia.
Qed.

Lemma count_inner_ring (n v : Z) :
  count_occ Z.eq_dec (map (fun i => i + n) (range n)) v =
  if (n <=? v) && (v <? 2 * n) then 1%nat else 0%nat.
Proof.
  destruct (Z.leb_spec n v), (Z.ltb_spec v (2 * n)); cbn [andb].
  - apply count_occ_NoDup_In; [apply inner_vertices_NoDup|].
    apply inner_vertices_In. lia.
  - apply count_occ_absent. rewrite inner_vertices_In. lia.
  - apply count_occ_absent. rewrite inner_vertices_In. lia.
  - apply count_occ_absent. rewrite inner_vertices_In. lia.
Qed.

Lemma degree_outer_cycle (n v : Z) :
  0 < n ->
  degree (map (outer_edge n) (range n)) v =
  if (0 <=? v) && (v <? n) then 2%nat else 0%nat.
Proof.
  intros Hn. rewrite degree_map. cbn [outer_edge fst snd].
  rewrite map_id.
  rewrite (proj1 (Permutation_count_occ Z.eq_dec _ _) (rotation_permutation n 1 Hn)).
  rewrite count_outer_ring. now destruct ((0 <=? v) && (v <? n)).
Qed.

Lemma degree_spokes (n v : Z) :
  0 < n ->
  degree (map (spoke_edge n) (range n)) v =
  if (0 <=? v) && (v <? 2 * n) then 1%nat else 0%nat.
Proof.
  intros Hn. rewrite degree_map. cbn [spoke_edge fst snd].
  rewrite map_id, count_outer_ring, count_inner_ring.
  destruct (Z.leb_spec 0 v), (Z.ltb_spec v n), (Z.leb_spec n v),
    (Z.ltb_spec v (2 * n)); cbn [andb]; lia.
Qed.

Lemma degree_inner_cycle (n k v : Z) :
  0 < n ->
  degree (map (inner_edge n k) (range n)) v =
  if (n <=? v) && (v <? 2 * n) then 2%nat else 0%nat.
Proof.
  intros Hn. rewrite degree_map. cbn [inner_edge fst snd].
  rewrite (proj1 (Permutation_count_occ Z.eq_dec _ _)
             (rotation_permutation_inner n k Hn)).
  rewrite count_inner_ring. now destruct ((n <=? v) && (v <? 2 * n)).
Qed.

Lemma degree_generalized_petersen (n k v : Z) :
  0 < n -> 0 <= v < 2 * n -> degree (generalized_petersen_edges n k) v = 3%nat.
Proof.
  intros Hn Hv. rewrite (degree_permutation _ _ v (edges_by_kind n k)).
  rewrite !degree_app, degree_outer_cycle, degree_spokes, degree_inner_cycle
    by assumption.
  destruct (Z.leb_spec 0 v), (Z.ltb_spec v n), (Z.leb_spec n v),
    (Z.ltb_spec v (2 * n)); cbn [andb]; lia.
Qed.

(* ================================================================= *)
(** ** No loops, no parallel edges *)

Lemma no_self_loop_generalized_petersen (n k : Z) :
  valid_parameters n k -> no_self_loop (generalized_petersen_edges n k).
Proof.
  intros (Hn & Hk & Hkn). unfold no_self_loop, generalized_petersen_edges.
  apply Forall_flat_map, Forall_forall. intros i Hi. apply range_In in Hi.
  unfold gp_triple, outer_edge, spoke_edge, inner_edge.
  repeat constructor; cbn [fst snd].
  - intros E. symmetry in E. revert E. apply mod_shift_moves; lia.
  - lia.
  - intros E. assert (E' : (i + k) mod n = i) by lia.
    revert E'. apply mod_shift_moves; lia.
Qed.

(** An edge of a ring is told from its unordered pair of ends: the other
    possibility, the same pair walked backwards, needs [n] to divide [2s]. *)
Lemma ring_edge_inj (n s i j : Z) :
  0 < 2 * s < n -> 0 <= i < n -> 0 <= j < n ->
  Z.min i ((i + s) mod n) = Z.min j ((j + s) mod n) ->
  Z.max i ((i + s) mod n) = Z.max j ((j + s) mod n) ->
  i = j.
Proof.
  intros Hs Hi Hj Emin Emax.
  destruct (Z.eq_dec i j) as [|Hne]; [assumption|exfalso].
  assert (E1 : (j + s) mod n = i) by lia.
  assert (E2 : (i + s) mod n = j) by lia.
  apply (mod_shift_twice n s i Hs Hi). now rewrite E2.
Qed.

Lemma outer_cycle_NoDup (n : Z) :
  3 <= n -> NoDup (map normalize (map (outer_edge n) (range n))).
Proof.
  intros Hn. rewrite map_map. apply NoDup_map_on; [|apply range_NoDup].
  intros i j Hi Hj. rewrite range_In in Hi, Hj.
  unfold normalize, outer_edge. cbn [fst snd]. intros [= Emin Emax].
  apply (ring_edge_inj n 1 i j); auto; lia.
Qed.

Lemma spokes_NoDup (n : Z) :
  0 < n -> NoDup (map normalize (map (spoke_edge n) (range n))).
Proof.
  intros Hn. rewrite map_map. apply NoDup_map_on; [|apply range_NoDup].
  intros i j Hi Hj. unfold normalize, spoke_edge. cbn [fst snd].
  intros [= Emin Emax]. lia.
Qed.

Lemma inner_cycle_NoDup (n k : Z) :
  valid_parameters n k ->
  NoDup (map normalize (map (inner_edge n k) (range n))).
Proof.
  intros (Hn & Hk & Hkn). rewrite map_map.
  apply NoDup_map_on; [|apply range_NoDup].
  intros i j Hi Hj. rewrite range_In in Hi, Hj.
  unfold normalize, inner_edge. cbn [fst snd]. intros [= Emin Emax].
  apply (ring_edge_inj n k i j); auto; lia.
Qed.

(** Where the ends of the three kinds of edges lie. *)
Lemma outer_cycle_ends (n : Z) (e : Z * Z) :
  0 < n -> In e (map normalize (map (outer_edge n) (range n))) ->
  fst e < n /\ snd e < n.
Proof.
  intros Hn. rewrite map_map, in_map_iff. intros (i & <- & Hi).
  apply range_In in Hi. unfold normalize, outer_edge. cbn [fst snd].
  pose proof (Z.mod_pos_bound (i + 1) n Hn). lia.
Qed.

Lemma spoke_ends (n : Z) (e : Z * Z) :
  0 < n -> In e (map normalize (map (spoke_edge n) (range n))) ->
  fst e < n <= snd e.
Proof.
  intros Hn. rewrite map_map, in_map_iff. intros (i & <- & Hi).
  apply range_In in Hi. unfold normalize, spoke_edge. cbn [fst snd]. lia.
Qed.

Lemma inner_cycle_ends (n k : Z) (e : Z * Z) :
  0 < n -> In e (map normalize (map (inner_edge n k) (range n))) ->
  n <= fst e.
Proof.
  intros Hn. rewrite map_map, in_map_iff. intros (i & <- & Hi).
  apply range_In in Hi. unfold normalize, inner_edge. cbn [fst snd].
  pose proof (Z.mod_pos_bound (i + k) n Hn). lia.
Qed.

Lemma no_multi_edge_generalized_petersen (n k : Z) :
  valid_parameters n k -> no_multi_edge (generalized_petersen_edges n k).
Proof.
  intros V. pose proof V as (Hn & Hk & Hkn). unfold no_multi_edge.
  apply (Permutation_NoDup
           (Permutation_sym (Permutation_map normalize (edges_by_kind n k)))).
  rewrite !map_app. apply NoDup_app; [|apply NoDup_app|].
  - now apply outer_cycle_NoDup.
  - apply spokes_NoDup. lia.
  - now apply inner_cycle_NoDup.
  - intros e Hs Hi. apply spoke_ends in Hs; [|lia].
    apply inner_cycle_ends in Hi; lia.
  - intros e Ho Hsi. apply outer_cycle_ends in Ho; [|lia].
    apply in_app_or in Hsi as [Hs|Hi].
    + apply spoke_ends in Hs; lia.
    + apply inner_cycle_ends in Hi; lia.
Qed.

Lemma simple_generalized_petersen (n k : Z) :
  valid_parameters n k -> simple_graph (generalized_petersen_edges n k).
Proof.
  intros V. split.
  - now apply no_self_loop_generalized_petersen.
  - now apply no_multi_edge_generalized_petersen.
Qed.

(* ================================================================= *)
(** ** The inner ring as a union of cycles *)

Lemma cancel_common_factor (c s l d q : Z) :
  0 < c -> d * (c * s) = q * (c * l) -> s * d = q * l.
Proof. intros Hc E. apply (Z.mul_reg_l _ _ c); lia. Qed.

Lemma residue_difference (c s l r r' j j' q : Z) :
  r + j * (c * s) - (r' + j' * (c * s)) = q * (c * l) ->
  r - r' = (q * l - (j - j') * s) * c.
Proof. intros E. lia. Qed.

Lemma full_turn (c s l n k r : Z) :
  n = c * l -> k = c * s -> r + 0 * k + s * n = r + (0 + l) * k.
Proof. intros -> ->. ring. Qed.

Section InnerCycles.

Variables n k : Z.
Hypothesis V : valid_parameters n k.

Lemma gcd_positive : 0 < Z.gcd k n.
Proof.
  destruct V as (Hn & Hk & Hkn).
  pose proof (Z.gcd_nonneg k n).
  assert (Z.gcd k n <> 0); [|lia].
  intros E. apply Z.gcd_eq_0 in E. lia.
Qed.

Lemma n_by_gcd : n = Z.gcd k n * (n / Z.gcd k n).
Proof.
  apply Zdivide_Zdiv_eq; [apply gcd_positive|apply Z.gcd_divide_r].
Qed.

Lemma k_by_gcd : k = Z.gcd k n * (k / Z.gcd k n).
Proof.
  apply Zdivide_Zdiv_eq; [apply gcd_positive|apply Z.gcd_divide_l].
Qed.

Lemma len_positive : 0 < n / Z.gcd k n.
Proof.
  destruct V as (Hn & Hk & Hkn).
  pose proof gcd_positive as G. pose proof n_by_gcd as E.
  destruct (Z_lt_le_dec 0 (n / Z.gcd k n)) as [|Hle]; [assumption|].
  exfalso. revert G E Hle Hn. generalize (Z.gcd k n) (n / Z.gcd k n).
  intros c l G E Hle Hn. nia.
Qed.

(** The bound [2k < n] leaves every cycle at least three edges. *)
Lemma cycles_are_long : 3 <= n / Z.gcd k n.
Proof.
  destruct V as (Hn & Hk & Hkn).
  pose proof gcd_positive as G. pose proof n_by_gcd as En.
  assert (Hg : Z.gcd k n <= k)
    by (apply Z.divide_pos_le; [lia|apply Z.gcd_divide_l]).
  revert G En Hg. generalize (Z.gcd k n) (n / Z.gcd k n). intros c l G En Hg.
  nia.
Qed.

Lemma len_step_coprime : Z.gcd (n / Z.gcd k n) (k / Z.gcd k n) = 1.
Proof.
  rewrite Z.gcd_comm. apply Z.gcd_div_gcd; [|reflexivity].
  pose proof gcd_positive. lia.
Qed.

(** [d * k] is a multiple of [n] only when [d] is a multiple of
    [n / gcd k n]. *)
Lemma multiple_of_step (d q : Z) : d * k = q * n -> (n / Z.gcd k n | d).
Proof.
  intros E. apply (Z.gauss _ (k / Z.gcd k n) d); [|apply len_step_coprime].
  exists q. apply (cancel_common_factor (Z.gcd k n)); [apply gcd_positive|].
  now rewrite <- k_by_gcd, <- n_by_gcd.
Qed.

Lemma walk_indices_inj (r j j' : Z) :
  0 <= j < n / Z.gcd k n -> 0 <= j' < n / Z.gcd k n ->
  (r + j * k) mod n = (r + j' * k) mod n -> j = j'.
Proof.
  intros Hj Hj' E. destruct V as (Hn & Hk & Hkn).
  destruct (mod_eq_multiple n _ _ ltac:(lia) E) as [q Hq].
  destruct (multiple_of_step (j - j') q ltac:(lia)) as [c Hc].
  pose proof (small_multiple_zero _ c (j - j') len_positive Hc ltac:(lia)).
  lia.
Qed.

(** All residues on the walk from [r] are congruent to [r] modulo the
    greatest common divisor. *)
Lemma walk_indices_residue (r r' j j' : Z) :
  0 <= r < Z.gcd k n -> 0 <= r' < Z.gcd k n ->
  (r + j * k) mod n = (r' + j' * k) mod n -> r = r'.
Proof.
  intros Hr Hr' E. destruct V as (Hn & Hk & Hkn).
  destruct (mod_eq_multiple n _ _ ltac:(lia) E) as [q Hq].
  assert (Hd : r - r' =
               (q * (n / Z.gcd k n) - (j - j') * (k / Z.gcd k n)) * Z.gcd k n).
  { apply residue_difference. now rewrite <- k_by_gcd, <- n_by_gcd. }
  pose proof (small_multiple_zero _ _ (r - r') gcd_positive Hd ltac:(lia)).
  lia.
Qed.

Lemma walk_indices_NoDup (r : Z) : NoDup (walk_indices n k r (n / Z.gcd k n)).
Proof.
  apply NoDup_map_on; [|apply range_NoDup].
  intros j j' Hj Hj'. rewrite range_In in Hj, Hj'. now apply walk_indices_inj.
Qed.

End InnerCycles.

Lemma NoDup_flat_map {A B : Type} (f : A -> list B) (l : list A) :
  NoDup l ->
  (forall x, In x l -> NoDup (f x)) ->
  (forall x y b, In x l -> In y l -> In b (f x) -> In b (f y) -> x = y) ->
  NoDup (flat_map f l).
Proof.
  intros N. induction N as [|a l Ha N IH]; intros Each Apart; cbn [flat_map].
  - constructor.
  - apply NoDup_app.
    + apply Each. now left.
    + apply IH.
      * intros x Hx. apply Each. now right.
      * intros x y b Hx Hy. apply Apart; now right.
    + intros b Hb Hb'. apply in_flat_map in Hb' as (y & Hy & Hby).
      assert (a = y) by (apply (Apart a y b); auto; [now left|now right]).
      subst. contradiction.
Qed.

Lemma flat_map_length_const {A B : Type} (f : A -> list B) (l : list A) (c : nat) :
  (forall x, In x l -> length (f x) = c) ->
  length (flat_map f l) = (length l * c)%nat.
Proof.
  induction l as [|a l IH]; intros Each; [reflexivity|].
  cbn [flat_map length]. rewrite length_app, Each by now left.
  rewrite IH; [lia|]. intros x Hx. apply Each. now right.
Qed.

Lemma concat_walks (n k len : Z) (l : list Z) :
  concat (map (fun r => inner_walk n k r len) l) =
  map (inner_edge n k) (flat_map (fun r => walk_indices n k r len) l).
Proof.
  induction l as [|r l IH]; [reflexivity|].
  cbn [map concat flat_map]. now rewrite map_app, IH.
Qed.

(** The walk from [r] goes from vertex to vertex along its edges. *)
Lemma chained_walk (n k r : Z) (steps : nat) :
  forall j,
    chained ((r + j * k) mod n + n)
            (map (inner_edge n k)
                 (map (fun j => (r + j * k) mod n) (zrange j steps)))
            ((r + (j + Z.of_nat steps) * k) mod n + n).
Proof.
  induction steps as [|steps IH]; intros j; cbn [zrange map chained].
  - now rewrite Z.add_0_r.
  - split; [reflexivity|]. unfold inner_edge at 1. cbn [snd].
    rewrite Zplus_mod_idemp_l.
    replace (r + j * k + k) with (r + (j + 1) * k) by lia.
    replace (j + Z.of_nat (S steps)) with (j + 1 + Z.of_nat steps) by lia.
    apply IH.
Qed.

Section Decomposition.

Variables n k : Z.
Hypothesis V : valid_parameters n k.

Lemma inner_walk_is_cycle (r : Z) : is_cycle (inner_walk n k r (n / Z.gcd k n)).
Proof.
  pose proof (len_positive n k V) as L. destruct V as (Hn & Hk & Hkn).
  split; [|split].
  - unfold inner_walk, walk_indices, range.
    destruct (Z.to_nat (n / Z.gcd k n)) eqn:E; [lia|discriminate].
  - exists ((r + 0 * k) mod n + n).
    pose proof (chained_walk n k r (Z.to_nat (n / Z.gcd k n)) 0) as C.
    replace ((r + (0 + Z.of_nat (Z.to_nat (n / Z.gcd k n))) * k) mod n)
      with ((r + 0 * k) mod n) in C; [exact C|].
    rewrite Z2Nat.id by lia.
    replace (r + (0 + n / Z.gcd k n) * k)
      with (r + 0 * k + (k / Z.gcd k n) * n).
    + now rewrite Z_mod_plus_full.
    + apply (full_turn (Z.gcd k n)); [now apply n_by_gcd|now apply k_by_gcd].
  - unfold inner_walk. rewrite map_map.
    apply NoDup_map_on; [|now apply walk_indices_NoDup].
    intros i i' _ _. unfold inner_edge. cbn [fst]. lia.
Qed.

Lemma all_walks_permutation :
  Permutation
    (flat_map (fun r => walk_indices n k r (n / Z.gcd k n)) (range (Z.gcd k n)))
    (range n).
Proof.
  pose proof (len_positive n k V) as L. pose proof (gcd_positive n k V) as G.
  pose proof V as (Hn & Hk & Hkn).
  apply NoDup_Permutation_bis.
  - apply NoDup_flat_map.
    + apply range_NoDup.
    + intros r _. now apply walk_indices_NoDup.
    + intros r r' b Hr Hr' Hb Hb'. rewrite range_In in Hr, Hr'.
      unfold walk_indices in Hb, Hb'.
      apply in_map_iff in Hb as (j & <- & _).
      apply in_map_iff in Hb' as (j' & E & _).
      symmetry in E. now apply (walk_indices_residue n k V r r' j j').
  - rewrite (flat_map_length_const _ _ (Z.to_nat (n / Z.gcd k n))).
    + rewrite !range_length, <- Z2Nat.inj_mul by lia.
      rewrite <- (n_by_gcd n k V). lia.
    + intros r _. unfold walk_indices. now rewrite length_map, range_length.
  - intros x Hx. apply in_flat_map in Hx as (r & _ & Hx).
    unfold walk_indices in Hx. apply in_map_iff in Hx as (j & <- & _).
    apply range_In, Z.mod_pos_bound. lia.
Qed.

(** The inner edges of the specification's graph split into
    [gcd k n] cycles of [n / gcd k n] edges each, which together visit every
    inner vertex once. *)
Lemma inner_edges_decomposition :
  let cycles :=
    map (fun r => inner_walk n k r (n / Z.gcd k n)) (range (Z.gcd k n)) in
  Z.of_nat (length cycles) = Z.gcd k n /\
  Forall (fun c => Z.of_nat (length c) = n / Z.gcd k n) cycles /\
  cycle_decomposition (map (inner_edge n k) (range n)) cycles /\
  (forall v, In v (map fst (concat cycles)) <-> n <= v < 2 * n).
Proof.
  pose proof (len_positive n k V) as L. pose proof (gcd_positive n k V) as G.
  pose proof all_walks_permutation as P.
  intros cycles.
  assert (Vs : Permutation (map fst (concat cycles))
                           (map (fun i => i + n) (range n))).
  { subst cycles. rewrite concat_walks, map_map.
    apply (Permutation_map (fun i => fst (inner_edge n k i))) in P.
    exact P. }
  split; [|split; [|split; [split; [|split]|]]].
  - subst cycles. rewrite length_map, range_length. lia.
  - subst cycles. apply Forall_forall. intros c Hc.
    apply in_map_iff in Hc as (r & <- & _).
    unfold inner_walk, walk_indices. rewrite !length_map, range_length. lia.
  - subst cycles. rewrite concat_walks. now apply Permutation_map.
  - subst cycles. apply Forall_forall. intros c Hc.
    apply in_map_iff in Hc as (r & <- & _). apply inner_walk_is_cycle.
  - apply (Permutation_NoDup (Permutation_sym Vs)), inner_vertices_NoDup.
  - intros v. rewrite <- inner_vertices_In. split; apply Permutation_in;
      [exact Vs|exact (Permutation_sym Vs)].
Qed.

End Decomposition.

(* ================================================================= *)
(** ** Reading a run backwards *)

Lemma valid_parameters_dec (n k : Z) :
  {valid_parameters n k} + {~ valid_parameters n k}.
Proof.
  unfold valid_parameters.
  destruct (Z_le_dec 3 n), (Z_lt_dec 0 k), (Z_lt_dec (2 * k) n);
    (left; lia) || (right; lia).
Qed.

Lemma invalid_parameters_iff (n k : Z) :
  ~ valid_parameters n k <-> n < 3 \/ ~ (k > 0 /\ 2 * k < n).
Proof. unfold valid_parameters. lia. Qed.

Section Inversion.

Variable h : host.

(** A successful run had valid parameters in range, and stored the graph of
    the specification. *)
Lemma petersen_done_inv (n k : Z) (w w' : world) :
  igraph_generalized_petersen h n k w = Done tt w' ->
  valid_parameters n k /\ 3 * n <= IGRAPH_INTEGER_MAX h /\
  graph_out w' = Some (generalized_petersen_graph n k).
Proof.
  intros E. destruct (valid_parameters_dec n k) as [V|V].
  - destruct (Z_le_gt_dec (3 * n) (IGRAPH_INTEGER_MAX h)) as [Hmax|Hmax].
    + destruct (reserve_granted h (3 * n) && create_granted h (2 * n) (6 * n))
        eqn:G.
      * apply andb_true_iff in G as [R C].
        destruct (petersen_success h n k w V Hmax R C) as (w1 & E1 & G1 & _).
        rewrite E in E1. injection E1 as ->. auto.
      * destruct (petersen_oom h n k w V Hmax G) as (w1 & E1 & _). congruence.
    + rewrite petersen_overflow in E by (auto; lia). discriminate.
  - rewrite petersen_rejects in E by assumption.
    destruct (_ && _) in E; discriminate.
Qed.

(** A run that ended in [IGRAPH_EINVAL] stopped at the validator. *)
Lemma petersen_einval_inv (n k : Z) (w w' : world) :
  igraph_generalized_petersen h n k w = Raised IGRAPH_EINVAL w' ->
  ~ valid_parameters n k /\ w' = w.
Proof.
  intros E. destruct (valid_parameters_dec n k) as [V|V].
  - exfalso.
    destruct (Z_le_gt_dec (3 * n) (IGRAPH_INTEGER_MAX h)) as [Hmax|Hmax].
    + destruct (reserve_granted h (3 * n) && create_granted h (2 * n) (6 * n))
        eqn:G.
      * apply andb_true_iff in G as [R C].
        destruct (petersen_success h n k w V Hmax R C) as (w1 & E1 & _).
        congruence.
      * destruct (petersen_oom h n k w V Hmax G) as (w1 & E1 & _). congruence.
    + rewrite petersen_overflow in E by (auto; lia). discriminate.
  - split; [assumption|]. rewrite petersen_rejects in E by assumption.
    destruct (_ && _) in E; [|discriminate]. now injection E.
Qed.

(** A finished enumeration holds the loop's values. *)
Lemma enumerate_edges_done_inv (n k : Z) (w w' : world) (v : igraph_vector_int_t) :
  valid_parameters n k -> enumerate_edges h n k w = Done v w' ->
  3 * n <= IGRAPH_INTEGER_MAX h /\
  stor v = flat_map (body_values n k) (range n).
Proof.
  intros (Hn & Hk & Hkn) E.
  destruct (enumerate_edges_inv h n k w w' v ltac:(lia) E) as [Hmax R].
  split; [assumption|].
  destruct (enumerate_edges_done h n k w) as (v1 & w1 & E1 & S1 & _);
    try lia; auto.
  rewrite E in E1. now injection E1 as -> ->.
Qed.

End Inversion.


(* ================================================================= *)
(** ** The properties of the specification *)







(** Where the validation works as intended.  For every pair [(n, k)] whose
    products [2n] and (when it is computed at all, that is for [n >= 3] and
    [k > 0]) [2k] fit [igraph_integer_t], the function returns
    [IGRAPH_EINVAL] exactly when [n < 3] or not ([k > 0] and [2k < n]); and
    whenever it returns [IGRAPH_EINVAL] no collaborator has been called: the
    world is what it was. *)
Theorem petersen_rejects_iff_invalid (h : host) (n k : Z) (w : world) :
  representable h (2 * n) = true ->
  (3 <= n -> 0 < k -> representable h (2 * k) = true) ->
  ((exists w', igraph_generalized_petersen h n k w = Raised IGRAPH_EINVAL w')
   <-> (n < 3 \/ ~ (k > 0 /\ 2 * k < n))) /\
  (forall w',
     igraph_generalized_petersen h n k w = Raised IGRAPH_EINVAL w' -> w' = w).
Proof.
  intros Rn Rk. split.
  - rewrite <- invalid_parameters_iff. split.
    + intros (w' & E). now apply petersen_einval_inv in E.
    + intros V. exists w. rewrite petersen_rejects by assumption.
      rewrite Rn. cbn [andb].
      destruct (Z.ltb_spec n 3); [reflexivity|].
      destruct (Z.leb_spec k 0); [reflexivity|].
      cbn [orb]. now rewrite Rk by lia.
  - intros w' E. now apply petersen_einval_inv in E.
Qed.

Lemma petersen_rejects_iff_invalid_witness :
  igraph_generalized_petersen host64 2 1 fresh_world
    = Raised IGRAPH_EINVAL fresh_world /\
  igraph_generalized_petersen host64 5 0 fresh_world
    = Raised IGRAPH_EINVAL fresh_world /\
  igraph_generalized_petersen host64 6 3 fresh_world
    = Raised IGRAPH_EINVAL fresh_world /\
  igraph_generalized_petersen host64 5 (-1) fresh_world
    = Raised IGRAPH_EINVAL fresh_world /\
  ~ (exists w', igraph_generalized_petersen host64 5 2 fresh_world
                = Raised IGRAPH_EINVAL w').
Proof.
  assert (R : forall n k, - 2 ^ 61 <= n <= 2 ^ 61 -> - 2 ^ 61 <= k <= 2 ^ 61 ->
              (n < 3 \/ ~ (k > 0 /\ 2 * k < n)) ->
              igraph_generalized_petersen host64 n k fresh_world
                = Raised IGRAPH_EINVAL fresh_world).
  { intros n k Hn Hk I.
    destruct (petersen_rejects_iff_invalid host64 n k fresh_world)
      as [[_ Rej] Same].
    - apply representable_spec. cbn [IGRAPH_INTEGER_MAX host64]. lia.
    - intros _ _. apply representable_spec. cbn [IGRAPH_INTEGER_MAX host64]. lia.
    - destruct (Rej I) as (w' & E). now rewrite (Same w' E) in E. }
  repeat split; try (apply R; lia).
  intros I.
  destruct (petersen_rejects_iff_invalid host64 5 2 fresh_world) as [[Acc _] _].
  - reflexivity.
  - reflexivity.
  - apply Acc in I. lia.
Defined.

(** C3, a defect of the code.  The test of line 62 is meant to reject every
    [k] that is not below [n/2] (the message of line 63 says so), and C3
    asks for [IGRAPH_EINVAL] then.  For [n = 5] and [k = 2^62] on a 64-bit
    build the condition [k > 0 && 2*k < n] is false on the integers, yet the
    product [2*k] of line 62 overflows [igraph_integer_t]: the behaviour is
    undefined and the function does not return [IGRAPH_EINVAL]. *)
Lemma overflowing_shift_is_not_rejected :
  (5 < 3 \/ ~ (2 ^ 62 > 0 /\ 2 * 2 ^ 62 < 5)) /\
  igraph_generalized_petersen host64 5 (2 ^ 62) fresh_world = Undefined /\
  ~ (exists w', igraph_generalized_petersen host64 5 (2 ^ 62) fresh_world
                = Raised IGRAPH_EINVAL w').
Proof.
  assert (E : igraph_generalized_petersen host64 5 (2 ^ 62) fresh_world
              = Undefined) by (vm_compute; reflexivity).
  split; [|split].
  - right. intros [_ H]. revert H. apply Z.le_ngt. decide_order.
  - exact E.
  - intros (w' & E'). rewrite E in E'. discriminate.
Qed.

(** C4.  For valid parameters, every vertex of the produced graph has degree
    exactly 3, counting the ends of the emitted edges: a vertex of the outer
    ring [0 .. n-1] is an end of two outer-cycle edges and one spoke, a
    vertex of the inner ring [n .. 2n-1] of two inner-cycle edges and one
    spoke. *)
Theorem petersen_cubic (h : host) (n k : Z) (w w' : world) (g : igraph_t) :
  valid_parameters n k ->
  igraph_generalized_petersen h n k w = Done tt w' ->
  graph_out w' = Some g ->
  igraph_vcount g = 2 * n /\
  forall v, 0 <= v < igraph_vcount g ->
    degree (gr_edges g) v = 3%nat /\
    (v < n ->
     degree (outer_cycle_edges (gr_edges g)) v = 2%nat /\
     degree (spoke_edges (gr_edges g)) v = 1%nat /\
     degree (inner_cycle_edges (gr_edges g)) v = 0%nat) /\
    (n <= v ->
     degree (outer_cycle_edges (gr_edges g)) v = 0%nat /\
     degree (spoke_edges (gr_edges g)) v = 1%nat /\
     degree (inner_cycle_edges (gr_edges g)) v = 2%nat).
Proof.
  intros V E G. pose proof V as (Hn & Hk & Hkn).
  apply petersen_done_inv in E as (_ & _ & G').
  rewrite G' in G. injection G as <-.
  cbn [igraph_vcount generalized_petersen_graph gr_n gr_edges].
  split; [reflexivity|]. intros v Hv.
  rewrite outer_cycle_edges_spec, spoke_edges_spec, inner_cycle_edges_spec.
  rewrite degree_outer_cycle, degree_spokes, degree_inner_cycle by lia.
  split; [apply degree_generalized_petersen; lia|].
  destruct (Z.leb_spec 0 v), (Z.ltb_spec v n), (Z.leb_spec n v),
    (Z.ltb_spec v (2 * n)); cbn [andb]; repeat split; lia.
Qed.

Lemma petersen_cubic_witness :
  exists w' g,
    igraph_generalized_petersen host64 5 2 fresh_world = Done tt w' /\
    graph_out w' = Some g /\
    igraph_vcount g = 10 /\
    forall v, 0 <= v < 10 -> degree (gr_edges g) v = 3%nat.
Proof.
  assert (V : valid_parameters 5 2) by (unfold valid_parameters; lia).
  destruct (petersen_success host64 5 2 fresh_world V ltac:(decide_order)
              eq_refl eq_refl) as (w' & E & G & _).
  exists w', (generalized_petersen_graph 5 2).
  destruct (petersen_cubic host64 5 2 fresh_world w' _ V E G) as [Hc Hd].
  repeat split; auto. intros v Hv. exact (proj1 (Hd v Hv)).
Defined.

(** C5.  For valid parameters with [g = gcd (k, n)], the [n] inner edges
    of the produced graph split into exactly [g] cycles of [n/g] edges each,
    no two of which share a vertex and which together cover the inner
    vertices [n .. 2n-1]; for [n = 6], [k = 2] the inner subgraph has the two
    connected components [{6, 8, 10}] and [{7, 9, 11}]. *)
Theorem inner_ring_cycles (h : host) (n k : Z) (w w' : world) (g : igraph_t) :
  valid_parameters n k ->
  igraph_generalized_petersen h n k w = Done tt w' ->
  graph_out w' = Some g ->
  3 <= n / Z.gcd k n /\
  (exists cycles,
     Z.of_nat (length cycles) = Z.gcd k n /\
     Forall (fun c => Z.of_nat (length c) = n / Z.gcd k n) cycles /\
     cycle_decomposition (inner_cycle_edges (gr_edges g)) cycles /\
     (forall v, In v (map fst (concat cycles)) <-> n <= v < 2 * n)) /\
  (n = 6 -> k = 2 ->
   connected_components (inner_cycle_edges (gr_edges g))
                        (map (fun i => i + n) (range n))
   = [[6; 8; 10]; [7; 9; 11]]).
Proof.
  intros V E G. apply petersen_done_inv in E as (_ & _ & G').
  rewrite G' in G. injection G as <-.
  cbn [generalized_petersen_graph gr_edges]. split; [|split].
  - now apply cycles_are_long.
  - rewrite inner_cycle_edges_spec.
    exists (map (fun r => inner_walk n k r (n / Z.gcd k n)) (range (Z.gcd k n))).
    now apply inner_edges_decomposition.
  - intros -> ->. vm_compute. reflexivity.
Qed.

Lemma inner_ring_cycles_witness :
  exists w' g,
    igraph_generalized_petersen host64 6 2 fresh_world = Done tt w' /\
    graph_out w' = Some g /\
    (exists cycles,
       Z.of_nat (length cycles) = 2 /\
       Forall (fun c => Z.of_nat (length c) = 3) cycles /\
       cycle_decomposition (inner_cycle_edges (gr_edges g)) cycles) /\
    connected_components (inner_cycle_edges (gr_edges g))
                         (map (fun i => i + 6) (range 6))
    = [[6; 8; 10]; [7; 9; 11]].
Proof.
  assert (V : valid_parameters 6 2) by (unfold valid_parameters; lia).
  destruct (petersen_success host64 6 2 fresh_world V ltac:(decide_order)
              eq_refl eq_refl) as (w' & E & G & _).
  exists w', (generalized_petersen_graph 6 2).
  destruct (inner_ring_cycles host64 6 2 fresh_world w' _ V E G)
    as (_ & (cycles & Hc & Hl & Hd & _) & Hcc).
  repeat split; auto. exists cycles. auto.
Defined.

(** C6 (as amended).  On one host, a run that returns does so with a code
    and a stored graph that do not depend on what the memory held before
    the call: every other run on the same [(n, k)] returns the same code
    and stores the same graph.  Across hosts, two successful runs on the
    same [(n, k)] store the same graph, vertex for vertex and edge for edge
    in the same order, and two runs that return an error on invalid
    parameters return the same one, [IGRAPH_EINVAL].  Whether a run on
    valid parameters succeeds is decided by the host. *)
Theorem petersen_deterministic :
  (forall h n k w1 w2 code g,
     observable (igraph_generalized_petersen h n k w1) = Some (code, g) ->
     observable (igraph_generalized_petersen h n k w2) = Some (code, g)) /\
  (forall h1 h2 n k w1 w2 w1' w2',
     igraph_generalized_petersen h1 n k w1 = Done tt w1' ->
     igraph_generalized_petersen h2 n k w2 = Done tt w2' ->
     graph_out w1' = graph_out w2' /\
     graph_out w1' = Some (generalized_petersen_graph n k)) /\
  (forall h1 h2 n k w1 w2 e1 e2 w1' w2',
     ~ valid_parameters n k ->
     igraph_generalized_petersen h1 n k w1 = Raised e1 w1' ->
     igraph_generalized_petersen h2 n k w2 = Raised e2 w2' ->
     e1 = e2 /\ e1 = IGRAPH_EINVAL).
Proof.
  split; [|split].
  - intros h n k w1 w2 code g <-. symmetry.
    destruct (valid_parameters_dec n k) as [V|V].
    + destruct (Z_le_gt_dec (3 * n) (IGRAPH_INTEGER_MAX h)) as [Hmax|Hmax].
      * destruct (reserve_granted h (3 * n) && create_granted h (2 * n) (6 * n))
          eqn:G.
        -- apply andb_true_iff in G as [R C].
           destruct (petersen_success h n k w1 V Hmax R C) as (w1' & E1 & G1 & _).
           destruct (petersen_success h n k w2 V Hmax R C) as (w2' & E2 & G2 & _).
           rewrite E1, E2. cbn [observable]. now rewrite G1, G2.
        -- destruct (petersen_oom h n k w1 V Hmax G) as (w1' & E1 & _).
           destruct (petersen_oom h n k w2 V Hmax G) as (w2' & E2 & _).
           now rewrite E1, E2.
      * rewrite !petersen_overflow by (auto; lia). reflexivity.
    + rewrite !petersen_rejects by assumption. now destruct (_ && _).
  - intros h1 h2 n k w1 w2 w1' w2' E1 E2.
    apply petersen_done_inv in E1 as (_ & _ & G1).
    apply petersen_done_inv in E2 as (_ & _ & G2).
    split; congruence.
  - intros h1 h2 n k w1 w2 e1 e2 w1' w2' V E1 E2.
    rewrite petersen_rejects in E1, E2 by assumption.
    destruct (_ && _) in E1; [|discriminate].
    destruct (_ && _) in E2; [|discriminate].
    injection E1 as <- _. injection E2 as <- _. now split.
Qed.

(** C6 as stated fails: two runs on the same valid input need not produce
    the same result.  On [(5, 2)] a run whose storage requests are granted
    succeeds, and a run whose reservation is refused returns
    [IGRAPH_ENOMEM] and stores no graph. *)
Lemma allocation_decides_the_result :
  valid_parameters 5 2 /\
  (exists w', igraph_generalized_petersen host64 5 2 fresh_world
              = Done tt w') /\
  (exists w', igraph_generalized_petersen host_oom 5 2 fresh_world
              = Raised IGRAPH_ENOMEM w') /\
  observable (igraph_generalized_petersen host64 5 2 fresh_world)
  <> observable (igraph_generalized_petersen host_oom 5 2 fresh_world).
Proof.
  assert (V : valid_parameters 5 2) by (unfold valid_parameters; lia).
  destruct (petersen_success host64 5 2 fresh_world V ltac:(decide_order)
              eq_refl eq_refl) as (w1 & E1 & _).
  destruct (petersen_oom host_oom 5 2 fresh_world V ltac:(decide_order)
              eq_refl) as (w2 & E2 & _).
  split; [exact V|]. split; [now exists w1|]. split; [now exists w2|].
  rewrite E1, E2. discriminate.
Qed.

(** The storage calls of the enumerator: the vector is created, room for
    [3*n] integers is reserved, and the loop, which appends [6*n], makes the
    buffer grow once, to [6*n] integers. *)
Lemma enumerate_edges_log (h : host) (n k : Z) (w : world) :
  valid_parameters n k ->
  3 * n <= IGRAPH_INTEGER_MAX h ->
  reserve_granted h (3 * n) = true ->
  exists v w',
    enumerate_edges h n k w = Done v w' /\
    storage_log w' =
      storage_log w ++ [EvInit; EvReserve (3 * n); EvGrow (6 * n)] /\
    finally_stack w' = S (finally_stack w) /\
    stor v = flat_map (body_values n k) (range n) /\
    capacity v = 6 * n.
Proof.
  intros (Hn & Hk & Hkn) Hmax R.
  rewrite enumerate_edges_pushes by (auto; lia).
  assert (Hl : length (flat_map (body_values n k) (range n))
               = (Z.to_nat (3 * n) + Z.to_nat (3 * n))%nat)
    by (rewrite loop_values_length, range_length; lia).
  generalize dependent (flat_map (body_values n k) (range n)). intros l Hl.
  pose proof (firstn_skipn (Z.to_nat (3 * n)) l) as Sp.
  assert (H1 : length (firstn (Z.to_nat (3 * n)) l) = Z.to_nat (3 * n))
    by (rewrite length_firstn; lia).
  assert (H2 : length (skipn (Z.to_nat (3 * n)) l) = Z.to_nat (3 * n))
    by (rewrite length_skipn; lia).
  revert Sp H1 H2.
  generalize (firstn (Z.to_nat (3 * n)) l) (skipn (Z.to_nat (3 * n)) l).
  intros l1 l2 <- H1 H2. clear Hl.
  rewrite push_all_app. unfold bind. rewrite push_all_room
    by (unfold igraph_vector_int_size; cbn [stor capacity length]; lia).
  cbn [stor capacity app].
  destruct l2 as [|e l2]; [cbn [length] in H2; lia|].
  cbn [length] in H2. rewrite push_all_grows;
    try (unfold igraph_vector_int_size; cbn [stor capacity]; lia).
  eexists. eexists. split; [reflexivity|].
  cbn [storage_log finally_stack log finally_push capacity stor].
  split; [|split; [|split]].
  - replace (2 * (3 * n)) with (6 * n) by lia.
    rewrite <- !app_assoc. reflexivity.
  - reflexivity.
  - reflexivity.
  - lia.
Qed.

(** C7: what the code does.  For valid parameters in range, the reservation
    asks for room for [3*n] integers, the loop appends [6*n], and the
    buffer has to grow on the way: the log of the enumerator shows the
    growth (to [6*n] integers) after the reservation. *)
Theorem buffer_grows_during_loop (h : host) (n k : Z) (w : world) :
  valid_parameters n k ->
  3 * n <= IGRAPH_INTEGER_MAX h ->
  reserve_granted h (3 * n) = true ->
  exists v w',
    enumerate_edges h n k w = Done v w' /\
    storage_log w' =
      storage_log w ++ [EvInit; EvReserve (3 * n); EvGrow (6 * n)] /\
    igraph_vector_int_size v = 6 * n /\
    capacity v = 6 * n.
Proof.
  intros V Hmax R.
  destruct (enumerate_edges_log h n k w V Hmax R) as (v & w' & E & L & _ & S & C).
  exists v, w'. repeat split; auto.
  unfold igraph_vector_int_size.
  rewrite S, loop_values_length, range_length. destruct V. lia.
Qed.

Lemma buffer_grows_during_loop_witness :
  exists v w',
    enumerate_edges host64 3 1 fresh_world = Done v w' /\
    storage_log w' = [EvInit; EvReserve 9; EvGrow 18] /\
    igraph_vector_int_size v = 18 /\
    capacity v = 18.
Proof.
  apply (buffer_grows_during_loop host64 3 1 fresh_world).
  - unfold valid_parameters. lia.
  - decide_order.
  - reflexivity.
Defined.

(** C8 (as amended).  For valid parameters with [n] at most a third of the
    largest [igraph_integer_t], no arithmetic of the function overflows:
    the run is never undefined, and [2*n], [2*k], [3*n] and, for every
    [i] of the loop, [i+1], [i+n], [i+k] and [(i+k) % n + n] are all
    representable. *)
Theorem no_overflow_up_to_a_third (h : host) (n k : Z) (w : world) :
  valid_parameters n k ->
  3 * n <= IGRAPH_INTEGER_MAX h ->
  igraph_generalized_petersen h n k w <> Undefined /\
  representable h (2 * n) = true /\
  representable h (2 * k) = true /\
  representable h (3 * n) = true /\
  forall i, 0 <= i < n ->
    representable h (i + 1) = true /\
    representable h (Z.rem (i + 1) n) = true /\
    representable h (i + n) = true /\
    representable h (i + k) = true /\
    representable h (Z.rem (i + k) n) = true /\
    representable h (Z.rem (i + k) n + n) = true.
Proof.
  intros V Hmax. pose proof V as (Hn & Hk & Hkn). split; [|repeat split].
  - destruct (reserve_granted h (3 * n) && create_granted h (2 * n) (6 * n))
      eqn:G.
    + apply andb_true_iff in G as [R C].
      destruct (petersen_success h n k w V Hmax R C) as (w' & E & _).
      congruence.
    + destruct (petersen_oom h n k w V Hmax G) as (w' & E & _). congruence.
  - apply representable_nonneg; lia.
  - apply representable_nonneg; lia.
  - apply representable_nonneg; lia.
  - apply representable_nonneg; lia.
  - apply representable_nonneg.
    pose proof (Z.rem_bound_pos (i + 1) n ltac:(lia) ltac:(lia)). lia.
  - apply representable_nonneg; lia.
  - apply representable_nonneg; lia.
  - apply representable_nonneg.
    pose proof (Z.rem_bound_pos (i + k) n ltac:(lia) ltac:(lia)). lia.
  - apply representable_nonneg.
    pose proof (Z.rem_bound_pos (i + k) n ltac:(lia) ltac:(lia)). lia.
Qed.

Lemma no_overflow_up_to_a_third_witness :
  igraph_generalized_petersen host32 715827882 357913940 fresh_world
  <> Undefined.
Proof.
  refine (proj1 (no_overflow_up_to_a_third host32 715827882 357913940
                   fresh_world _ _)).
  - unfold valid_parameters. lia.
  - decide_order.
Defined.

(** C8 as stated fails: [n = 2^62 - 1] is at most half of the largest
    64-bit integer, the parameters are valid, and [3*n] overflows. *)
Lemma triple_overflows_below_half :
  valid_parameters (2 ^ 62 - 1) 1 /\
  2 ^ 62 - 1 <= IGRAPH_INTEGER_MAX host64 / 2 /\
  representable host64 (2 * (2 ^ 62 - 1)) = true /\
  representable host64 (3 * (2 ^ 62 - 1)) = false /\
  igraph_generalized_petersen host64 (2 ^ 62 - 1) 1 fresh_world = Undefined.
Proof.
  split; [decide_order|]. split; [decide_order|].
  repeat split; vm_compute; reflexivity.
Qed.

(** C9.  For valid parameters, every integer the enumerator has appended
    lies in [0, n) or in [n, 2n), so it is a vertex index below [2n]; the
    operands [i+1] and [i+k] of the two reductions are non-negative and
    below [2n], and the reductions, which C computes by truncation, give
    the non-negative residues modulo [n]. *)
Theorem endpoints_are_vertex_indices
  (h : host) (n k : Z) (w w' : world) (v : igraph_vector_int_t) :
  valid_parameters n k ->
  enumerate_edges h n k w = Done v w' ->
  Forall (fun x => 0 <= x < n \/ n <= x < 2 * n) (stor v) /\
  stor v = flat_map (body_values n k) (range n) /\
  forall i, 0 <= i < n ->
    0 <= i + 1 < 2 * n /\
    0 <= i + k < 2 * n /\
    0 <= Z.rem (i + 1) n < n /\
    0 <= Z.rem (i + k) n < n /\
    Z.rem (i + 1) n = (i + 1) mod n /\
    Z.rem (i + k) n = (i + k) mod n.
Proof.
  intros V E. pose proof V as (Hn & Hk & Hkn).
  destruct (enumerate_edges_done_inv h n k w w' v V E) as [_ S].
  split; [|split; [exact S|]].
  - rewrite S. eapply Forall_impl; [|apply (loop_values_bounds n k); lia].
    cbn beta. intros x Hx. lia.
  - intros i Hi.
    pose proof (Z.rem_bound_pos (i + 1) n ltac:(lia) ltac:(lia)).
    pose proof (Z.rem_bound_pos (i + k) n ltac:(lia) ltac:(lia)).
    rewrite <- !Z.rem_mod_nonneg by lia. repeat split; lia.
Qed.

Lemma endpoints_are_vertex_indices_witness :
  exists v w',
    enumerate_edges host64 4 1 fresh_world = Done v w' /\
    Forall (fun x => 0 <= x < 4 \/ 4 <= x < 8) (stor v).
Proof.
  assert (V : valid_parameters 4 1) by (unfold valid_parameters; lia).
  destruct (enumerate_edges_done host64 4 1 fresh_world ltac:(lia) ltac:(lia)
              ltac:(decide_order) eq_refl) as (v & w' & E & _).
  exists v, w'. split; [exact E|].
  exact (proj1 (endpoints_are_vertex_indices host64 4 1 fresh_world w' v V E)).
Defined.

(** Walking the inner ring with a step of exactly half its length would
    give every inner edge twice. *)
Lemma half_step_doubles_inner_edges (n k : Z) :
  0 < k -> 2 * k = n -> ~ no_multi_edge (generalized_petersen_edges n k).
Proof.
  intros Hk Hn N. unfold no_multi_edge in N.
  apply (Permutation_NoDup (Permutation_map normalize (edges_by_kind n k))) in N.
  rewrite !map_app in N.
  apply NoDup_app_remove_l, NoDup_app_remove_l in N. rewrite map_map in N.
  assert (In0 : In 0 (range n)) by (apply range_In; lia).
  destruct (in_split _ _ In0) as (l1 & l2 & E). rewrite E in N.
  rewrite map_app in N. cbn [map] in N. apply NoDup_remove_2 in N.
  apply N. rewrite <- map_app. apply in_map_iff. exists k. split.
  - unfold normalize, inner_edge. cbn [fst snd].
    replace (k + k) with (0 + 1 * n) by lia.
    rewrite Z_mod_plus_full, Z.mod_0_l by lia.
    rewrite (Z.mod_small (0 + k)) by lia. f_equal; lia.
  - assert (Ink : In k (range n)) by (apply range_In; lia).
    rewrite E in Ink. apply in_app_or in Ink as [I|[I|I]]; apply in_or_app;
      auto; lia.
Qed.

(** C10.  For valid parameters the [3n] edges of the produced graph have no
    self-loop and no two of them join the same unordered pair of vertices:
    the graph is simple.  The strict bound matters: with [2k = n] the
    formula would give parallel inner edges. *)
Theorem petersen_simple (h : host) (n k : Z) (w w' : world) (g : igraph_t) :
  valid_parameters n k ->
  igraph_generalized_petersen h n k w = Done tt w' ->
  graph_out w' = Some g ->
  igraph_ecount g = 3 * n /\
  simple_graph (gr_edges g) /\
  (forall m s, 0 < s -> 2 * s = m ->
               ~ no_multi_edge (generalized_petersen_edges m s)).
Proof.
  intros V E G. apply petersen_done_inv in E as (_ & _ & G').
  rewrite G' in G. injection G as <-.
  unfold igraph_ecount. cbn [generalized_petersen_graph gr_edges].
  split; [|split].
  - apply edges_length. destruct V. lia.
  - now apply simple_generalized_petersen.
  - apply half_step_doubles_inner_edges.
Qed.

Lemma petersen_simple_witness :
  exists w' g,
    igraph_generalized_petersen host64 5 2 fresh_world = Done tt w' /\
    graph_out w' = Some g /\
    igraph_ecount g = 15 /\
    simple_graph (gr_edges g).
Proof.
  assert (V : valid_parameters 5 2) by (unfold valid_parameters; lia).
  destruct (petersen_success host64 5 2 fresh_world V ltac:(decide_order)
              eq_refl eq_refl) as (w' & E & G & _).
  exists w', (generalized_petersen_graph 5 2).
  destruct (petersen_simple host64 5 2 fresh_world w' _ V E G) as (Hc & Hs & _).
  repeat split; auto; apply Hs.
Defined.

(* ================================================================= *)
(** ** The scenarios of section 8 *)

(** Section 8, the classic Petersen graph: [n = 5], [k = 2] gives 10 vertices and
    15 edges, and every vertex has degree 3. *)
Theorem classic_petersen_graph :
  exists w' g,
    igraph_generalized_petersen host64 5 2 fresh_world = Done tt w' /\
    graph_out w' = Some g /\
    igraph_vcount g = 10 /\
    igraph_ecount g = 15 /\
    gr_edges g =
      [(0, 1); (0, 5); (5, 7); (1, 2); (1, 6); (6, 8); (2, 3); (2, 7); (7, 9);
       (3, 4); (3, 8); (8, 5); (4, 0); (4, 9); (9, 6)] /\
    map (degree (gr_edges g)) (range 10) = repeat 3%nat 10.
Proof.
  destruct (petersen_success host64 5 2 fresh_world
              ltac:(unfold valid_parameters; lia) ltac:(decide_order)
              eq_refl eq_refl) as (w' & E & G & _).
  exists w', (generalized_petersen_graph 5 2).
  split; [exact E|]. split; [exact G|].
  split; [reflexivity|]. split; [reflexivity|]. split; vm_compute; reflexivity.
Qed.

(** Section 8, [n = 4], [k = 1]: the outer cycle on the vertices 0..3, the inner
    cycle on 4..7 and the spokes 0-4, 1-5, 2-6, 3-7; 8 vertices and 12 edges
    in all. *)
Theorem cube_graph :
  exists w' g,
    igraph_generalized_petersen host64 4 1 fresh_world = Done tt w' /\
    graph_out w' = Some g /\
    igraph_vcount g = 8 /\
    igraph_ecount g = 12 /\
    outer_cycle_edges (gr_edges g) = [(0, 1); (1, 2); (2, 3); (3, 0)] /\
    spoke_edges (gr_edges g) = [(0, 4); (1, 5); (2, 6); (3, 7)] /\
    inner_cycle_edges (gr_edges g) = [(4, 5); (5, 6); (6, 7); (7, 4)].
Proof.
  destruct (petersen_success host64 4 1 fresh_world
              ltac:(unfold valid_parameters; lia) ltac:(decide_order)
              eq_refl eq_refl) as (w' & E & G & _).
  exists w', (generalized_petersen_graph 4 1).
  split; [exact E|]. split; [exact G|].
  split; [reflexivity|]. split; [reflexivity|].
  split; [|split]; vm_compute; reflexivity.
Qed.

(* ================================================================= *)
(** ** Every way the function can end *)

(** X2.  For valid parameters the arithmetic of the function overflows
    exactly when [3*n] does not fit [igraph_integer_t]: the bound of a third
    of the largest integer is the exact one. *)
Theorem overflow_exactly_beyond_a_third (h : host) (n k : Z) (w : world) :
  valid_parameters n k ->
  (igraph_generalized_petersen h n k w = Undefined
   <-> IGRAPH_INTEGER_MAX h < 3 * n).
Proof.
  intros V. split.
  - intros E. destruct (Z_le_gt_dec (3 * n) (IGRAPH_INTEGER_MAX h)) as [Hmax|Hmax];
      [exfalso|lia].
    destruct (reserve_granted h (3 * n) && create_granted h (2 * n) (6 * n))
      eqn:G.
    + apply andb_true_iff in G as [R C].
      destruct (petersen_success h n k w V Hmax R C) as (w1 & E1 & _).
      congruence.
    + destruct (petersen_oom h n k w V Hmax G) as (w1 & E1 & _). congruence.
  - now apply petersen_overflow.
Qed.

Lemma overflow_exactly_beyond_a_third_witness :
  igraph_generalized_petersen host32 715827883 1 fresh_world = Undefined /\
  igraph_generalized_petersen host32 715827882 1 fresh_world <> Undefined.
Proof.
  split.
  - apply (overflow_exactly_beyond_a_third host32 715827883 1 fresh_world).
    + unfold valid_parameters. lia.
    + decide_order.
  - intros E.
    apply (overflow_exactly_beyond_a_third host32 715827882 1 fresh_world) in E.
    + revert E. apply Z.le_ngt. decide_order.
    + unfold valid_parameters. lia.
Defined.

(** X3.  The checks are made in the order of the source and the product
    [2*k] is only computed after [n >= 3] and [k > 0] have been found to
    hold.  With [2*n] representable: [n < 3] or [k <= 0] gives
    [IGRAPH_EINVAL] whatever the other parameter is, also for a [k] whose
    double would overflow, and nothing has been touched; for [n >= 3] and
    [k > 0] with [2*k] not representable the comparison [2*k < n] of line 62
    overflows and the behaviour is undefined. *)
Theorem validation_short_circuits (h : host) (n k : Z) (w : world) :
  representable h (2 * n) = true ->
  (n < 3 \/ k <= 0 ->
   igraph_generalized_petersen h n k w = Raised IGRAPH_EINVAL w) /\
  (3 <= n -> 0 < k -> representable h (2 * k) = false ->
   igraph_generalized_petersen h n k w = Undefined).
Proof.
  intros R. split.
  - intros I. rewrite petersen_rejects by (unfold valid_parameters; lia).
    rewrite R. cbn [andb].
    destruct (Z.ltb_spec n 3); [reflexivity|].
    destruct (Z.leb_spec k 0); [reflexivity|lia].
  - intros Hn Hk Rk.
    assert (V : ~ valid_parameters n k).
    { intros (_ & _ & Hkn).
      assert (representable h (2 * k) = true); [|congruence].
      apply representable_spec in R. apply representable_spec. lia. }
    rewrite petersen_rejects by assumption. rewrite R, Rk. cbn [andb].
    replace (n <? 3) with false by (symmetry; apply Z.ltb_ge; lia).
    replace (k <=? 0) with false by (symmetry; apply Z.leb_gt; lia).
    reflexivity.
Qed.

Lemma validation_short_circuits_witness :
  representable host64 (2 * 2 ^ 62) = false /\
  igraph_generalized_petersen host64 2 (2 ^ 62) fresh_world
    = Raised IGRAPH_EINVAL fresh_world /\
  igraph_generalized_petersen host64 (2 ^ 62 - 1) (- 2 ^ 63) fresh_world
    = Raised IGRAPH_EINVAL fresh_world /\
  igraph_generalized_petersen host64 3 (2 ^ 62) fresh_world = Undefined.
Proof.
  split; [vm_compute; reflexivity|]. split; [|split].
  - apply (validation_short_circuits host64 2 (2 ^ 62) fresh_world).
    + vm_compute; reflexivity.
    + left. lia.
  - apply (validation_short_circuits host64 (2 ^ 62 - 1) (- 2 ^ 63) fresh_world).
    + vm_compute; reflexivity.
    + right. apply Z.leb_le. vm_compute; reflexivity.
  - apply (validation_short_circuits host64 3 (2 ^ 62) fresh_world).
    + vm_compute; reflexivity.
    + lia.
    + apply Z.ltb_lt. vm_compute; reflexivity.
    + vm_compute; reflexivity.
Defined.

(** X4.  The initialiser [no_of_nodes = 2*n] of line 55 runs before the
    parameters are checked: when [2*n] does not fit [igraph_integer_t] the
    behaviour is undefined, for every [k] and also for an [n] below 3 that
    the check of line 58 would have rejected. *)
Theorem doubling_precedes_validation (h : host) (n k : Z) (w : world) :
  representable h (2 * n) = false ->
  igraph_generalized_petersen h n k w = Undefined.
Proof.
  intros R. unfold igraph_generalized_petersen, bind, int_mul.
  now rewrite int_result_undefined.
Qed.

Lemma doubling_precedes_validation_witness :
  - 2 ^ 63 < 3 /\
  representable host64 (- 2 ^ 63) = true /\
  igraph_generalized_petersen host64 (- 2 ^ 63) 1 fresh_world = Undefined.
Proof.
  split; [decide_order|]. split; [vm_compute; reflexivity|].
  apply (doubling_precedes_validation host64 (- 2 ^ 63) 1 fresh_world).
  vm_compute; reflexivity.
Defined.

(* ================================================================= *)
(** ** The shape of the produced graph *)

Lemma triple_in_edges (n k i : Z) (e : Z * Z) :
  0 <= i < n -> In e (gp_triple n k i) ->
  In e (generalized_petersen_edges n k).
Proof.
  intros Hi He. apply in_flat_map. exists i. split; [|assumption].
  now apply range_In.
Qed.

Lemma joined_trans (el : list (Z * Z)) (u v x : Z) :
  joined el u v -> joined el v x -> joined el u x.
Proof.
  intros Huv Hvx. induction Hvx as [|v y x _ IH A]; [assumption|].
  eapply joined_step; [apply IH; assumption|exact A].
Qed.

Lemma adjacent_sym (el : list (Z * Z)) (u v : Z) :
  adjacent el u v -> adjacent el v u.
Proof. unfold adjacent. tauto. Qed.

Lemma joined_sym (el : list (Z * Z)) (u v : Z) :
  joined el u v -> joined el v u.
Proof.
  intros H. induction H as [|u v x _ IH A]; [constructor|].
  eapply joined_trans; [|exact IH].
  eapply joined_step; [constructor|now apply adjacent_sym].
Qed.

(** Every outer vertex is reached from vertex 0 along the outer cycle. *)
Lemma outer_ring_joined (n k : Z) (steps : nat) :
  Z.of_nat steps < n ->
  joined (generalized_petersen_edges n k) 0 (Z.of_nat steps).
Proof.
  induction steps as [|steps IH]; intros Hs; [constructor|].
  eapply joined_step; [apply IH; lia|]. left.
  apply (triple_in_edges n k (Z.of_nat steps)); [lia|]. left.
  unfold outer_edge. f_equal. rewrite Z.mod_small; lia.
Qed.

Lemma all_joined_to_zero (n k v : Z) :
  0 < n -> 0 <= v < 2 * n -> joined (generalized_petersen_edges n k) 0 v.
Proof.
  intros Hn Hv. destruct (Z_lt_le_dec v n) as [Ho|Hi].
  - rewrite <- (Z2Nat.id v) by lia. apply outer_ring_joined. lia.
  - apply (joined_step _ 0 (v - n) v).
    + rewrite <- (Z2Nat.id (v - n)) by lia. apply (outer_ring_joined n k). lia.
    + left. apply (triple_in_edges n k (v - n)); [lia|].
      right. left. unfold spoke_edge. f_equal. lia.
Qed.

(** X7.  The produced graph is connected: any two of its vertices are
    joined by a walk along its edges (around the outer cycle and across a
    spoke). *)
Theorem petersen_connected (h : host) (n k : Z) (w w' : world) (g : igraph_t) :
  igraph_generalized_petersen h n k w = Done tt w' ->
  graph_out w' = Some g ->
  connected_graph g.
Proof.
  intros E G. apply petersen_done_inv in E as ((Hn & _) & _ & G').
  rewrite G' in G. injection G as <-.
  intros u v Hu Hv. cbn [generalized_petersen_graph gr_n gr_edges] in *.
  eapply joined_trans.
  - apply joined_sym, all_joined_to_zero; lia.
  - apply all_joined_to_zero; lia.
Qed.

Lemma petersen_connected_witness :
  exists w' g,
    igraph_generalized_petersen host64 6 2 fresh_world = Done tt w' /\
    graph_out w' = Some g /\
    joined (gr_edges g) 7 10.
Proof.
  destruct (petersen_success host64 6 2 fresh_world
              ltac:(unfold valid_parameters; lia) ltac:(decide_order)
              eq_refl eq_refl) as (w' & E & G & _).
  exists w', (generalized_petersen_graph 6 2).
  split; [exact E|]. split; [exact G|].
  apply (petersen_connected host64 6 2 fresh_world w' _ E G);
    cbn [generalized_petersen_graph gr_n]; lia.
Defined.

(** The outer-cycle edges lead from vertex to vertex. *)
Lemma chained_outer (n : Z) (steps : nat) :
  forall i, 0 <= i -> i + Z.of_nat steps <= n ->
    chained (i mod n) (map (outer_edge n) (zrange i steps))
            ((i + Z.of_nat steps) mod n).
Proof.
  induction steps as [|steps IH]; intros i Hi Hs; cbn [zrange map chained].
  - now rewrite Z.add_0_r.
  - split; [unfold outer_edge; cbn [fst]; rewrite Z.mod_small; lia|].
    unfold outer_edge at 1. cbn [snd].
    replace (i + Z.of_nat (S steps)) with (i + 1 + Z.of_nat steps) by lia.
    apply IH; lia.
Qed.

(** X8.  The [n] outer-cycle edges of the produced graph form one cycle
    that starts at vertex 0, visits the outer vertices [0, 1, ..., n-1] in
    this order, each once, and closes at 0. *)
Theorem outer_ring_is_a_cycle (h : host) (n k : Z) (w w' : world) (g : igraph_t) :
  igraph_generalized_petersen h n k w = Done tt w' ->
  graph_out w' = Some g ->
  is_cycle (outer_cycle_edges (gr_edges g)) /\
  chained 0 (outer_cycle_edges (gr_edges g)) 0 /\
  map fst (outer_cycle_edges (gr_edges g)) = range n /\
  Z.of_nat (length (outer_cycle_edges (gr_edges g))) = n.
Proof.
  intros E G. apply petersen_done_inv in E as ((Hn & _) & _ & G').
  rewrite G' in G. injection G as <-.
  cbn [generalized_petersen_graph gr_edges]. rewrite outer_cycle_edges_spec.
  assert (F : map fst (map (outer_edge n) (range n)) = range n)
    by (rewrite map_map; apply map_id).
  assert (C : chained 0 (map (outer_edge n) (range n)) 0).
  { pose proof (chained_outer n (Z.to_nat n) 0 ltac:(lia) ltac:(lia)) as C.
    rewrite Z.add_0_l, Z2Nat.id, Z_mod_same_full, Z.mod_0_l in C by lia.
    exact C. }
  split; [|split; [exact C|split; [exact F|]]].
  - split; [|split].
    + unfold range. destruct (Z.to_nat n) eqn:En; [lia|discriminate].
    + now exists 0.
    + rewrite F. apply range_NoDup.
  - rewrite length_map, range_length. lia.
Qed.

Lemma outer_ring_is_a_cycle_witness :
  exists w' g,
    igraph_generalized_petersen host64 5 2 fresh_world = Done tt w' /\
    graph_out w' = Some g /\
    is_cycle (outer_cycle_edges (gr_edges g)) /\
    map fst (outer_cycle_edges (gr_edges g)) = [0; 1; 2; 3; 4].
Proof.
  destruct (petersen_success host64 5 2 fresh_world
              ltac:(unfold valid_parameters; lia) ltac:(decide_order)
              eq_refl eq_refl) as (w' & E & G & _).
  exists w', (generalized_petersen_graph 5 2).
  destruct (outer_ring_is_a_cycle host64 5 2 fresh_world w' _ E G)
    as (Hc & _ & Hf & _).
  repeat split; auto; apply Hc.
Defined.

(** Parity survives reduction modulo an even number. *)
Lemma even_mod_even (n a : Z) :
  0 < n -> Z.even n = true -> Z.even (a mod n) = Z.even a.
Proof.
  intros Hn En. rewrite (Z.div_mod a n) at 2 by lia.
  rewrite Z.even_add, Z.even_mul, En. cbn [orb].
  now destruct (Z.even (a mod n)).
Qed.

Lemma odd_mod_even (n a : Z) :
  0 < n -> Z.even n = true -> Z.odd (a mod n) = Z.odd a.
Proof.
  intros Hn En. rewrite <- !Z.negb_even. f_equal. now apply even_mod_even.
Qed.

(** Colouring the outer vertices by their parity and the inner vertices by
    the opposite parity is proper when [n] is even and [k] is odd. *)
Lemma parity_colouring (n k : Z) :
  valid_parameters n k -> Z.even n = true -> Z.odd k = true ->
  two_colouring (generalized_petersen_edges n k)
                (fun v => if v <? n then Z.even v else Z.odd (v - n)).
Proof.
  intros (Hn & Hk & Hkn) En Ok.
  unfold two_colouring, generalized_petersen_edges.
  apply Forall_flat_map, Forall_forall. intros i Hi. apply range_In in Hi.
  pose proof (Z.mod_pos_bound (i + 1) n ltac:(lia)) as B1.
  pose proof (Z.mod_pos_bound (i + k) n ltac:(lia)) as Bk.
  unfold gp_triple, outer_edge, spoke_edge, inner_edge.
  repeat constructor; cbn [fst snd].
  - replace (i <? n) with true by (symmetry; apply Z.ltb_lt; lia).
    replace ((i + 1) mod n <? n) with true by (symmetry; apply Z.ltb_lt; lia).
    rewrite even_mod_even by (auto; lia).
    rewrite Z.even_add. now destruct (Z.even i).
  - replace (i <? n) with true by (symmetry; apply Z.ltb_lt; lia).
    replace (i + n <? n) with false by (symmetry; apply Z.ltb_ge; lia).
    replace (i + n - n) with i by lia.
    rewrite <- Z.negb_even. now destruct (Z.even i).
  - replace (i + n <? n) with false by (symmetry; apply Z.ltb_ge; lia).
    replace ((i + k) mod n + n <? n) with false
      by (symmetry; apply Z.ltb_ge; lia).
    replace (i + n - n) with i by lia.
    replace ((i + k) mod n + n - n) with ((i + k) mod n) by lia.
    rewrite odd_mod_even by (auto; lia).
    rewrite Z.odd_add, Ok. now destruct (Z.odd i).
Qed.

Lemma odd_pred (n : Z) : Z.odd (n - 1) = Z.even n.
Proof.
  replace n with (Z.succ (n - 1)) at 2 by lia. now rewrite Z.even_succ.
Qed.

Lemma two_colouring_edge (el : list (Z * Z)) (colour : Z -> bool) (u v : Z) :
  two_colouring el colour -> In (u, v) el -> colour v = negb (colour u).
Proof.
  intros T I. unfold two_colouring in T. rewrite Forall_forall in T.
  specialize (T _ I). cbn [fst snd] in T.
  destruct (colour u), (colour v); cbn [negb]; congruence.
Qed.

(** Under a proper colouring the colours alternate along the outer cycle. *)
Lemma colours_alternate (n k : Z) (colour : Z -> bool) (steps : nat) :
  two_colouring (generalized_petersen_edges n k) colour ->
  Z.of_nat steps < n ->
  colour (Z.of_nat steps) = xorb (colour 0) (Z.odd (Z.of_nat steps)).
Proof.
  intros T. induction steps as [|steps IH]; intros Hs.
  - cbn. now rewrite xorb_false_r.
  - rewrite (two_colouring_edge _ colour (Z.of_nat steps) _ T).
    + rewrite IH by lia. rewrite Nat2Z.inj_succ, Z.odd_succ, <- Z.negb_odd.
      now destruct (colour 0), (Z.odd (Z.of_nat steps)).
    + apply (triple_in_edges n k (Z.of_nat steps)); [lia|]. left.
      unfold outer_edge. f_equal. rewrite Z.mod_small; lia.
Qed.

Lemma colours_alternate_Z (n k i : Z) (colour : Z -> bool) :
  two_colouring (generalized_petersen_edges n k) colour ->
  0 <= i < n -> colour i = xorb (colour 0) (Z.odd i).
Proof.
  intros T Hi. rewrite <- (Z2Nat.id i) by lia.
  apply (colours_alternate n k); [assumption|lia].
Qed.

(** X9.  The produced graph is bipartite exactly when [n] is even and [k] is
    odd: then the parities of the vertices give a proper colouring, and
    otherwise the outer cycle (for odd [n]) or the walk from 0 across a
    spoke, along an inner edge, back across a spoke and home along the outer
    cycle (for even [k]) has odd length. *)
Theorem bipartite_iff_even_odd
  (h : host) (n k : Z) (w w' : world) (g : igraph_t) :
  igraph_generalized_petersen h n k w = Done tt w' ->
  graph_out w' = Some g ->
  (bipartite (gr_edges g) <-> Z.even n = true /\ Z.odd k = true).
Proof.
  intros E G. apply petersen_done_inv in E as (V & _ & G').
  rewrite G' in G. injection G as <-.
  cbn [generalized_petersen_graph gr_edges]. pose proof V as (Hn & Hk & Hkn).
  split.
  - intros (colour & T). split.
    + (* the edge from n-1 back to 0 closes the outer cycle *)
      pose proof (colours_alternate_Z n k (n - 1) colour T ltac:(lia)) as A.
      assert (I : In (n - 1, 0) (generalized_petersen_edges n k)).
      { apply (triple_in_edges n k (n - 1)); [lia|]. left.
        unfold outer_edge. f_equal.
        replace (n - 1 + 1) with n by lia. now rewrite Z_mod_same_full. }
      pose proof (two_colouring_edge _ colour _ _ T I) as B.
      rewrite A in B.
      rewrite odd_pred in B.
      destruct (Z.even n); [reflexivity|].
      now destruct (colour 0).
    + (* 0, n, k+n, k: two spokes and an inner edge *)
      pose proof (colours_alternate_Z n k k colour T ltac:(lia)) as A.
      assert (S0 : In (0, 0 + n) (generalized_petersen_edges n k))
        by (apply (triple_in_edges n k 0); [lia|]; right; left; reflexivity).
      assert (Sk : In (k, k + n) (generalized_petersen_edges n k))
        by (apply (triple_in_edges n k k); [lia|]; right; left; reflexivity).
      assert (I0 : In (0 + n, k + n) (generalized_petersen_edges n k)).
      { apply (triple_in_edges n k 0); [lia|]. right. right. left.
        unfold inner_edge. f_equal. rewrite Z.add_0_l, Z.mod_small; lia. }
      pose proof (two_colouring_edge _ colour _ _ T S0) as B0.
      pose proof (two_colouring_edge _ colour _ _ T I0) as B1.
      pose proof (two_colouring_edge _ colour _ _ T Sk) as B2.
      rewrite B0 in B1. rewrite B1, A in B2.
      destruct (Z.odd k); [reflexivity|].
      now destruct (colour 0).
  - intros [En Ok]. eexists. now apply parity_colouring.
Qed.

Lemma bipartite_iff_even_odd_witness :
  (exists w' g,
     igraph_generalized_petersen host64 4 1 fresh_world = Done tt w' /\
     graph_out w' = Some g /\ bipartite (gr_edges g)) /\
  (exists w' g,
     igraph_generalized_petersen host64 5 2 fresh_world = Done tt w' /\
     graph_out w' = Some g /\ ~ bipartite (gr_edges g)).
Proof.
  split.
  - destruct (petersen_success host64 4 1 fresh_world
                ltac:(unfold valid_parameters; lia) ltac:(decide_order)
                eq_refl eq_refl) as (w' & E & G & _).
    exists w', (generalized_petersen_graph 4 1).
    split; [exact E|]. split; [exact G|].
    apply (bipartite_iff_even_odd host64 4 1 fresh_world w' _ E G).
    split; reflexivity.
  - destruct (petersen_success host64 5 2 fresh_world
                ltac:(unfold valid_parameters; lia) ltac:(decide_order)
                eq_refl eq_refl) as (w' & E & G & _).
    exists w', (generalized_petersen_graph 5 2).
    split; [exact E|]. split; [exact G|]. intros B.
    apply (bipartite_iff_even_odd host64 5 2 fresh_world w' _ E G) in B.
    destruct B as [B _]. discriminate B.
Defined.

Lemma map_flat_map {A B C : Type} (f : B -> C) (g : A -> list B) (l : list A) :
  map f (flat_map g l) = flat_map (fun x => map f (g x)) l.
Proof.
  induction l as [|a l IH]; [reflexivity|].
  cbn [flat_map]. now rewrite map_app, IH.
Qed.

Lemma flat_map_map {A B C : Type} (f : A -> B) (g : B -> list C) (l : list A) :
  flat_map g (map f l) = flat_map (fun x => g (f x)) l.
Proof.
  induction l as [|a l IH]; [reflexivity|].
  cbn [map flat_map]. now rewrite IH.
Qed.

Lemma flat_map_ext_in {A B : Type} (f g : A -> list B) (l : list A) :
  (forall x, In x l -> f x = g x) -> flat_map f l = flat_map g l.
Proof.
  induction l as [|a l IH]; intros Ext; [reflexivity|].
  cbn [flat_map]. rewrite Ext by now left.
  rewrite IH; [reflexivity|]. intros x Hx. apply Ext. now right.
Qed.

(** Rotating the triple of [i] gives the triple of [(i+1) mod n]. *)
Lemma rotate_triple (n k i : Z) :
  0 < n -> 0 <= i < n ->
  map (rotate_edge n) (gp_triple n k i) = gp_triple n k ((i + 1) mod n).
Proof.
  intros Hn Hi.
  pose proof (Z.mod_pos_bound (i + 1) n Hn) as B1.
  pose proof (Z.mod_pos_bound (i + k) n Hn) as Bk.
  unfold gp_triple, rotate_edge, outer_edge, spoke_edge, inner_edge, rotate.
  cbn [map fst snd].
  replace (i <? n) with true by (symmetry; apply Z.ltb_lt; lia).
  replace ((i + 1) mod n <? n) with true by (symmetry; apply Z.ltb_lt; lia).
  replace (i + n <? n) with false by (symmetry; apply Z.ltb_ge; lia).
  replace ((i + k) mod n + n <? n) with false
    by (symmetry; apply Z.ltb_ge; lia).
  replace (i + n - n + 1) with (i + 1) by lia.
  replace ((i + k) mod n + n - n + 1) with ((i + k) mod n + 1) by lia.
  rewrite !Zplus_mod_idemp_l.
  replace (i + k + 1) with (i + 1 + k) by lia. reflexivity.
Qed.

(** X10.  The produced graph has the rotational symmetry of the rings:
    moving every vertex one step around its ring (outer [i] to
    [(i+1) mod n], inner [i+n] to [((i+1) mod n) + n]) maps the edge list
    onto itself, edge for edge with its orientation, up to the order of the
    list. *)
Theorem rotation_is_symmetry (h : host) (n k : Z) (w w' : world) (g : igraph_t) :
  igraph_generalized_petersen h n k w = Done tt w' ->
  graph_out w' = Some g ->
  Permutation (map (rotate_edge n) (gr_edges g)) (gr_edges g).
Proof.
  intros E G. apply petersen_done_inv in E as ((Hn & _) & _ & G').
  rewrite G' in G. injection G as <-.
  cbn [generalized_petersen_graph gr_edges]. unfold generalized_petersen_edges.
  rewrite map_flat_map.
  rewrite (flat_map_ext_in _ (fun i => gp_triple n k ((i + 1) mod n))).
  - rewrite <- (flat_map_map (fun i => (i + 1) mod n) (gp_triple n k)).
    apply Permutation_flat_map, rotation_permutation. lia.
  - intros i Hi. apply range_In in Hi. apply rotate_triple; lia.
Qed.

Lemma rotation_is_symmetry_witness :
  exists w' g,
    igraph_generalized_petersen host64 5 2 fresh_world = Done tt w' /\
    graph_out w' = Some g /\
    Permutation (map (rotate_edge 5) (gr_edges g)) (gr_edges g).
Proof.
  destruct (petersen_success host64 5 2 fresh_world
              ltac:(unfold valid_parameters; lia) ltac:(decide_order)
              eq_refl eq_refl) as (w' & E & G & _).
  exists w', (generalized_petersen_graph 5 2).
  split; [exact E|]. split; [exact G|].
  exact (rotation_is_symmetry host64 5 2 fresh_world w' _ E G).
Defined.

(** X11.  The three kinds of edges stay where they belong: each of the [n]
    outer-cycle edges joins two outer vertices, each of the [n] inner edges
    joins two inner vertices, and the [n] spokes are exactly the pairs
    [(i, i+n)] for [i = 0, ..., n-1], in this order, so that only the spokes
    join the two rings. *)
Theorem edges_stay_in_their_ring
  (h : host) (n k : Z) (w w' : world) (g : igraph_t) :
  igraph_generalized_petersen h n k w = Done tt w' ->
  graph_out w' = Some g ->
  Forall (fun e => 0 <= fst e < n /\ 0 <= snd e < n)
         (outer_cycle_edges (gr_edges g)) /\
  spoke_edges (gr_edges g) = map (fun i => (i, i + n)) (range n) /\
  Forall (fun e => n <= fst e < 2 * n /\ n <= snd e < 2 * n)
         (inner_cycle_edges (gr_edges g)) /\
  Z.of_nat (length (outer_cycle_edges (gr_edges g))) = n /\
  Z.of_nat (length (spoke_edges (gr_edges g))) = n /\
  Z.of_nat (length (inner_cycle_edges (gr_edges g))) = n.
Proof.
  intros E G. apply petersen_done_inv in E as ((Hn & _) & _ & G').
  rewrite G' in G. injection G as <-.
  cbn [generalized_petersen_graph gr_edges].
  rewrite outer_cycle_edges_spec, spoke_edges_spec, inner_cycle_edges_spec.
  rewrite !length_map, range_length.
  split; [|split; [reflexivity|split; [|lia]]].
  - apply Forall_forall. intros e He.
    apply in_map_iff in He as (i & <- & Hi). apply range_In in Hi.
    pose proof (Z.mod_pos_bound (i + 1) n ltac:(lia)).
    unfold outer_edge. cbn [fst snd]. lia.
  - apply Forall_forall. intros e He.
    apply in_map_iff in He as (i & <- & Hi). apply range_In in Hi.
    pose proof (Z.mod_pos_bound (i + k) n ltac:(lia)).
    unfold inner_edge. cbn [fst snd]. lia.
Qed.

Lemma edges_stay_in_their_ring_witness :
  exists w' g,
    igraph_generalized_petersen host64 4 1 fresh_world = Done tt w' /\
    graph_out w' = Some g /\
    spoke_edges (gr_edges g) = [(0, 4); (1, 5); (2, 6); (3, 7)].
Proof.
  destruct (petersen_success host64 4 1 fresh_world
              ltac:(unfold valid_parameters; lia) ltac:(decide_order)
              eq_refl eq_refl) as (w' & E & G & _).
  exists w', (generalized_petersen_graph 4 1).
  split; [exact E|]. split; [exact G|].
  exact (proj1 (proj2 (edges_stay_in_their_ring host64 4 1 fresh_world w' _ E G))).
Defined.
